(** * An "in-the-wild" texture model notebook: embedding and properties

    This development embeds the code cells of the notebook
    [1. Building an "in-the-wild" texture model.ipynb] and proves the
    properties stated about them.

    Modelling conventions.
    - A NumPy floating-point number is idealised as an exact rational
      ([Q]); IEEE rounding, infinities and NaN are outside the model.
      Statements that the text makes "within floating-point tolerance"
      are made exactly, up to [Qeq].
    - A two-dimensional NumPy array is the list of its rows.
    - A Python exception is a value of [exn]; a call either returns or
      raises ([result]).
    - Code that reads files and consults the [lru_cache] runs in the monad
      [M]: it reads the file system ([world]) and threads the process
      state ([pstate]); an exception leaves the state as it was when the
      exception was raised.
    - The routines of the scientific libraries that the notebook calls
      but does not define (greyscale conversion, the landmark-driven
      rescale, the dense feature) are the fields of the class
      [Externals]; what is assumed of them is stated as a hypothesis of
      the theorem that needs it. *)

From Stdlib Require Import QArith Qminmax Qround Lia Ascii.
From stdpp Require Import gmap strings list.

(** ** Exceptions and results *)

Abbreviation path := (list string).

Inductive exn :=
| ValueError
| KeyError (key : string)
| IndexError
| FileNotFoundError (p : path)
| ExternalError (tag : string).

Inductive result (A : Type) :=
| Ok (a : A)
| Raise (e : exn).
Arguments Ok {A} a.
Arguments Raise {A} e.

Definition rbind {A B} (r : result A) (k : A → result B) : result B :=
  match r with
  | Ok a => k a
  | Raise e => Raise e
  end.

Declare Scope res_scope.
Delimit Scope res_scope with res.
Notation "'let*' x ':=' m 'in' k" := (rbind m (λ x, k))
  (at level 10, x name, m at level 100, k at level 200) : res_scope.

(** ** NumPy arrays *)

Abbreviation matrix := (list (list Q)).

(** Number of columns of a two-dimensional array given by its rows. *)
Definition ncols (m : matrix) : nat :=
  match m with
  | [] => 0
  | r :: _ => length r
  end.

(** Every row has [c] entries. *)
Definition width_is (c : nat) (m : matrix) : Prop :=
  Forall (λ r, length r = c) m.

(** [m[:, j]] *)
Definition column (j : nat) (m : matrix) : list Q :=
  map (λ r, nth j r 0%Q) m.

(** [m.T] *)
Definition transpose (m : matrix) : matrix :=
  map (λ j, column j m) (seq 0 (ncols m)).

(** [m - k], [m * k], [k - v] and [v / k] with a scalar [k] *)
Definition sub_scalar (m : matrix) (k : Q) : matrix :=
  map (map (λ x, (x - k)%Q)) m.

Definition mul_scalar (v : list Q) (k : Q) : list Q :=
  map (λ x, (x * k)%Q) v.

Definition scalar_sub (k : Q) (v : list Q) : list Q :=
  map (λ x, (k - x)%Q) v.

(** [m[i]] for a non-negative [i]: raises [IndexError] out of range. *)
Definition row_at {A} (m : list A) (i : nat) : result A :=
  match m !! i with
  | Some r => Ok r
  | None => Raise IndexError
  end.

(** [m[[i0, i1, ...]]]: the rows selected by a list of indices. *)
Fixpoint take_rows (idx : list nat) (m : matrix) : result matrix :=
  match idx with
  | [] => Ok []
  | i :: idx' =>
      (let* r := row_at m i in
       let* rs := take_rows idx' m in
       Ok (r :: rs))%res
  end.

(** [np.vstack([m, v])] for a two-dimensional [m] and a one-dimensional
    [v]: the lengths must agree.  An array without rows has no recorded
    width in this representation, and accepts any [v]. *)
Definition vstack_row (m : matrix) (v : list Q) : result matrix :=
  if decide (m = [] ∨ length v = ncols m) then Ok (m ++ [v])
  else Raise ValueError.

(** [target[:, :2] = value] for a [value] of two columns, with NumPy's
    broadcasting of a single row.  The target has at least two columns
    wherever the notebook performs this assignment. *)
Definition assign_first_two (target value : matrix) : result matrix :=
  if decide (length value = length target) then
    Ok (zip_with (λ r v, v ++ drop 2 r) target value)
  else
    match value with
    | [v] => Ok (map (λ r, v ++ drop 2 r) target)
    | _ => Raise ValueError
    end.

(** [target[:, 2] = target[:, 2] / k].  For [k = 0] NumPy produces
    infinities or NaN, which have no counterpart here ([Qdiv] gives 0). *)
Definition divide_third (target : matrix) (k : Q) : matrix :=
  map (alter (λ z, (z / k)%Q) 2%nat) target.

(** ** pathlib *)

(** [p.relative_to(other)] on the parts of two paths. *)
Fixpoint relative_to (p other : path) : result path :=
  match other, p with
  | [], _ => Ok p
  | o :: other', x :: p' =>
      if decide (x = o) then relative_to p' other' else Raise ValueError
  | _ :: _, [] => Raise ValueError
  end.

(** The text before and after the last dot of a name. *)
Fixpoint split_last_dot (s : string) : option (string * string) :=
  match s with
  | EmptyString => None
  | String c s' =>
      match split_last_dot s' with
      | Some (b, a) => Some (String c b, a)
      | None => if Ascii.eqb c "."%char then Some (EmptyString, s') else None
      end
  end.

(** [PurePath.with_suffix] on the final component: the old suffix starts
    at the last dot, provided that dot is neither the first nor the last
    character of the name. *)
Definition with_suffix_name (name suffix : string) : string :=
  match split_last_dot name with
  | Some (b, a) =>
      if decide (b ≠ EmptyString ∧ a ≠ EmptyString)
      then (b +:+ suffix)%string
      else (name +:+ suffix)%string
  | None => (name +:+ suffix)%string
  end.

Definition with_suffix (p : path) (suffix : string) : result path :=
  match last p with
  | None => Raise ValueError
  | Some name =>
      if decide (name = EmptyString) then Raise ValueError
      else Ok (removelast p ++ [with_suffix_name name suffix])
  end.

(** ** The data model *)

(** An image: the pixel array, channels first, and the landmark groups.
    The landmarks of an image are two-dimensional point clouds, one
    [(y, x)] pair per point. *)
Record Image := {
  pixels : list matrix;
  landmarks : gmap string (list (Q * Q));
}.

(** [img.shape]: height and width of the pixel grid. *)
Definition shape (img : Image) : nat * nat :=
  match pixels img with
  | [] => (0, 0)%nat
  | c :: _ => (length c, ncols c)
  end.

Definition height (img : Image) : Q := inject_Z (Z.of_nat (fst (shape img))).

(** A triangle mesh: an array of points, one row per vertex, and the
    triangle connectivity. *)
Record TriMesh := {
  points : matrix;
  trilist : matrix;
}.

(** The transform returned by a rescale: one scale per image axis. *)
Record NonUniformScale := {
  scale : list Q;
}.

(** Names of the dense feature functions of the imaging library. *)
Inductive feature_fn := fast_dsift | dsift | hog | igo | no_op.

(** [PointCloud(m)] stored as a landmark group of an image: every row of
    [m] must have two coordinates. *)
Fixpoint point_cloud_2d (m : matrix) : result (list (Q * Q)) :=
  match m with
  | [] => Ok []
  | [y; x] :: m' =>
      (let* ps := point_cloud_2d m' in Ok ((y, x) :: ps))%res
  | _ :: _ => Raise ValueError
  end.

(** [pc.points] *)
Definition pc_points (pc : list (Q * Q)) : matrix :=
  map (λ p, [fst p; snd p]) pc.

(** [img.landmarks[group] = pc] and [img.landmarks[group]] *)
Definition set_landmarks (img : Image) (group : string) (pc : list (Q * Q))
  : Image :=
  {| pixels := pixels img; landmarks := <[group := pc]> (landmarks img) |}.

Definition dict_get {V} (d : gmap string V) (key : string) : result V :=
  match d !! key with
  | Some v => Ok v
  | None => Raise (KeyError key)
  end.

(** ** Files, process state and the monad of the notebook *)

(** A file holds a decoded image or the variables of a MATLAB file. *)
Inductive file :=
| ImageFile (img : Image)
| MatFile (vars : gmap string matrix).

Abbreviation world := (gmap path file).

(** The process state: the single slot of the [lru_cache] around
    [load_trilist], and the number of times the body of [load_trilist]
    has run to completion (instrumentation, not read by the code). *)
Record pstate := {
  trilist_cache : option matrix;
  trilist_loads : nat;
}.

Definition fresh_process : pstate :=
  {| trilist_cache := None; trilist_loads := 0 |}.

Definition M (A : Type) : Type := world → pstate → result A * pstate.

Definition ret {A} (a : A) : M A := λ _ st, (Ok a, st).

Definition lift {A} (r : result A) : M A := λ _ st, (r, st).

Definition bind {A B} (m : M A) (k : A → M B) : M B :=
  λ w st,
    match m w st with
    | (Ok a, st') => k a w st'
    | (Raise e, st') => (Raise e, st')
    end.

Declare Scope M_scope.
Delimit Scope M_scope with M.
Notation "'let*' x ':=' m 'in' k" := (bind m (λ x, k))
  (at level 10, x name, m at level 100, k at level 200) : M_scope.
Notation "'let*' ' p ':=' m 'in' k" :=
  (bind m (λ x, match x with p => k end))
  (at level 10, p pattern, m at level 100, k at level 200) : M_scope.

(** [mio.import_image(p)] *)
Definition import_image (p : path) : M Image :=
  λ w st,
    match w !! p with
    | Some (ImageFile img) => (Ok img, st)
    | Some (MatFile _) => (Raise ValueError, st)
    | None => (Raise ValueError, st)
    end.

(** [sio.loadmat(str(p))].  On a file that is no MATLAB file the error
    of the library depends on the bytes of the file; it is not modelled
    further than being an error of the library. *)
Definition loadmat (p : path) : M (gmap string matrix) :=
  λ w st,
    match w !! p with
    | Some (MatFile vars) => (Ok vars, st)
    | Some (ImageFile _) => (Raise (ExternalError "loadmat"), st)
    | None => (Raise (FileNotFoundError p), st)
    end.

(** [functools.lru_cache(1)] around a function without arguments: a
    stored result is returned without running the body; a result is
    stored only when the body returns. *)
Definition lru_cache (body : M matrix) : M matrix :=
  λ w st,
    match trilist_cache st with
    | Some t => (Ok t, st)
    | None =>
        match body w st with
        | (Ok t, st') =>
            (Ok t, {| trilist_cache := Some t;
                      trilist_loads := S (trilist_loads st') |})
        | (Raise e, st') => (Raise e, st')
        end
    end.

(** ** The routines the notebook takes from its libraries *)

Class Externals := {
  (** the home directory that [expanduser] substitutes for [~] *)
  home : path;
  (** [img.as_greyscale()] *)
  as_greyscale : Image → result Image;
  (** [img.rescale_landmarks_to_diagonal_range(d, return_transform=True)] *)
  rescale_landmarks_to_diagonal_range :
    Image → Q → result (Image * NonUniformScale);
  (** calling a feature function on an image *)
  feature : feature_fn → Image → result Image;
  (** rounding a number to 32-bit precision *)
  to_float32 : Q → Q;
}.

(** A lazy list of menpo holds one callable per element. *)
Abbreviation LazyList A := (list (M A)).

(** ** The notebook *)

Section Notebook.
Context `{Externals}.

Local Open Scope M_scope.

(** [DATA_PATH = Path('~/Dropbox/itwmm_src_data/').expanduser()] *)
Definition DATA_PATH : path := home ++ ["Dropbox"; "itwmm_src_data"].

(** The diagonal range of the projected fit *)
Definition DIAGONAL_RANGE : Z := 180.

(** The image feature we wish to employ *)
Definition FEATURE_F : feature_fn := fast_dsift.

(** The body of [load_trilist], without its cache. *)
Definition load_trilist_body : M matrix :=
  let* vars :=
    loadmat (DATA_PATH ++
             ["300W-3D"; "Code"; "ModelGeneration"; "model_info.mat"]) in
  let* tri := lift (dict_get vars "tri") in
  (* flip triangle faces and matlab -> Python indexing *)
  let* flipped := lift (take_rows [1; 0; 2]%nat tri) in
  ret (sub_scalar (transpose flipped) 1).

Definition load_trilist : M matrix := lru_cache load_trilist_body.

Definition convert_raw_3d_fit_to_img_trimesh_fit
    (raw_3d_fit : matrix) (img : Image) : M TriMesh :=
  (* matlab 1 indexing *)
  let img_points_2d := sub_scalar (reverse (take 2 raw_3d_fit)) 1 in
  let* row0 := lift (row_at img_points_2d 0) in
  let img_points_2d :=
    <[0%nat := scalar_sub (height img) row0]> img_points_2d in
  (* Depth needs to be flipped *)
  let* depth := lift (row_at raw_3d_fit 2) in
  let* stacked := lift (vstack_row img_points_2d (mul_scalar depth (-1))) in
  let img_points_3d := transpose stacked in
  let* tri := load_trilist in
  ret {| points := img_points_3d; trilist := tri |}.

(** The path of the fit of an image, as [load_img_and_fit] computes it. *)
Definition fit_path_of (img_path : path) : result path :=
  (let* rel := relative_to img_path (DATA_PATH ++ ["300W-3D"]) in
   let* fit_rel_path := with_suffix rel ".mat" in
   Ok (DATA_PATH ++ ["300W-3D-Face"] ++ fit_rel_path))%res.

Definition load_img_and_fit (img_path : path) : M (Image * TriMesh) :=
  let* fit_path := lift (fit_path_of img_path) in
  let* colour := import_image img_path in
  let* img := lift (as_greyscale colour) in
  let* vars := loadmat fit_path in
  let* raw_3d_fit := lift (dict_get vars "Fitted_Face") in
  let* fit_trimesh_3d := convert_raw_3d_fit_to_img_trimesh_fit raw_3d_fit img in
  ret (img, fit_trimesh_3d).

Definition load_data_with_feature_sample
    (img_path : path) (err_proportion : Q) : M (Image * Image * TriMesh) :=
  let* '(img, fit_trimesh_3d) := load_img_and_fit img_path in
  (* rescale the image to the diagonal range we are using *)
  let* fit_2d := lift (point_cloud_2d (map (take 2) (points fit_trimesh_3d))) in
  let img := set_landmarks img "fit_2d" fit_2d in
  let* '(img, tr) :=
    lift (rescale_landmarks_to_diagonal_range img (inject_Z DIAGONAL_RANGE)) in
  (* note that we use the rescaled landmarks here *)
  let* rescaled := lift (dict_get (landmarks img) "fit_2d") in
  let* pts := lift (assign_first_two (points fit_trimesh_3d) (pc_points rescaled)) in
  let* scale0 := lift (row_at (scale tr) 0) in
  let pts := divide_third pts scale0 in
  (* take the feature on the rescaled image *)
  let* feat := lift (feature FEATURE_F img) in
  ret (img, feat, {| points := pts; trilist := trilist fit_trimesh_3d |}).

(** The default value of [err_proportion]. *)
Definition err_proportion_default : Q := 1 # 10000.

(** *** menpo's LazyList *)

(** [LazyList.init_from_iterable(xs)] *)
Definition init_from_iterable {A} (xs : list A) : LazyList A :=
  map (λ x, ret x) xs.

(** [l.map(f)]: each callable is wrapped; nothing is called. *)
Definition lazy_map {A B} (f : A → M B) (l : LazyList A) : LazyList B :=
  map (λ c, bind c f) l.

(** [l[i]] for an integer [i]: Python's list indexing, then the call. *)
Definition getitem {A} (l : LazyList A) (i : Z) : M A :=
  let n := Z.of_nat (length l) in
  let k := if (i <? 0)%Z then (i + n)%Z else i in
  if (k <? 0)%Z then lift (Raise IndexError)
  else
    match l !! Z.to_nat k with
    | Some c => c
    | None => lift (Raise IndexError)
    end.

(** [l[:n]] *)
Definition slice_to {A} (n : nat) (l : LazyList A) : LazyList A := take n l.

(** [imgs_features_and_fits], for the list [img_paths] found on disk. *)
Definition imgs_features_and_fits (img_paths : list path)
  : LazyList (Image * Image * TriMesh) :=
  lazy_map (λ p, load_data_with_feature_sample p err_proportion_default)
           (init_from_iterable img_paths).

(** [features_and_fits = imgs_features_and_fits.map(lambda x: x[1:])] *)
Definition features_and_fits (img_paths : list path)
  : LazyList (Image * TriMesh) :=
  lazy_map (λ x, ret (snd (fst x), snd x)) (imgs_features_and_fits img_paths).

(** A process: element accesses, each on the files as they are at that
    moment, threading the process state. *)
Fixpoint run_accesses {A} (l : LazyList A) (trace : list (world * Z))
    (st : pstate) : list (result A) * pstate :=
  match trace with
  | [] => ([], st)
  | (w, i) :: trace' =>
      let '(r, st') := getitem l i w st in
      let '(rs, st'') := run_accesses l trace' st' in
      (r :: rs, st'')
  end.

End Notebook.

(** ** The export cell *)

(** The values stored in the exported dictionary. *)
Inductive pyvalue (Model : Type) :=
| PyModel (m : Model)
| PyInt (z : Z)
| PyFeature (f : feature_fn).
Arguments PyModel {Model} m.
Arguments PyInt {Model} z.
Arguments PyFeature {Model} f.

(** [mio.export_pickle(obj, p, overwrite=True)] on the pickles on disk. *)
Definition export_pickle {O} (obj : O) (p : path) (disk : gmap path O)
  : gmap path O :=
  <[p := obj]> disk.

Section ExportCell.
Context `{Externals} {Model : Type}.

(** The dictionary literal of the export cell. *)
Definition exported_object (itw_texture_model : Model)
  : gmap string (pyvalue Model) :=
  {[ "texture_model" := PyModel itw_texture_model;
     "diagonal_range" := PyInt 180;
     "feature_function" := PyFeature fast_dsift ]}.

Definition export_cell (itw_texture_model : Model)
    (disk : gmap path (gmap string (pyvalue Model)))
  : gmap path (gmap string (pyvalue Model)) :=
  export_pickle (exported_object itw_texture_model)
                (DATA_PATH ++ ["itw_texture_model.pkl"]) disk.
End ExportCell.

(** ** Bounding boxes and pixel grids *)

Definition lower (l : list Q) : Q := foldr Qmin (hd 0%Q l) l.
Definition upper (l : list Q) : Q := foldr Qmax (hd 0%Q l) l.

(** The range of a coordinate: the side of the bounding box. *)
Definition extent (l : list Q) : Q := (upper l - lower l)%Q.

(** The square of the diagonal of the bounding box of the points whose
    coordinates are [ys] and [xs]. *)
Definition diag_sq (ys xs : list Q) : Q :=
  (extent ys * extent ys + extent xs * extent xs)%Q.

Definition landmarks_diag_sq (pc : list (Q * Q)) : Q :=
  diag_sq (map fst pc) (map snd pc).

(** The bounding box of the projection [mesh.points[:, :2]]. *)
Definition mesh_diag_sq (mesh : TriMesh) : Q :=
  diag_sq (column 0 (points mesh)) (column 1 (points mesh)).


(** [(y, x)] is an index of the pixel grid of [img]. *)
Definition valid_index (img : Image) (y x : Q) : Prop :=
  (0 <= y)%Q ∧ (y <= inject_Z (Z.of_nat (fst (shape img))) - 1)%Q ∧
  (0 <= x)%Q ∧ (x <= inject_Z (Z.of_nat (snd (shape img))) - 1)%Q.

Definition vertices_index_validly (img : Image) (pts : matrix) : Prop :=
  Forall (λ r, valid_index img (nth 0 r 0%Q) (nth 1 r 0%Q)) pts.

(** The map that a rescale applies to the points of the image: the
    pseudo-inverse of the transform [tr] it returns, which leads from the
    rescaled image back to the original one. *)
Definition apply_pseudoinverse (tr : NonUniformScale) (p : Q * Q) : Q * Q :=
  ((fst p / nth 0 (scale tr) 0)%Q, (snd p / nth 1 (scale tr) 0)%Q).

(** The rescale maps every point [p] of the plane to [s * p]. *)
Definition rescale_maps_by (tr : NonUniformScale) (s : Q) : Prop :=
  ∀ y x : Q,
    (fst (apply_pseudoinverse tr (y, x)) == s * y)%Q ∧
    (snd (apply_pseudoinverse tr (y, x)) == s * x)%Q.

(** ** Objects on the heap: [as_float32] *)

Inductive dtype := float64 | float32 | uint8.

(** An array object: element type and values (channels first). *)
Record ndarray := {
  arr_dtype : dtype;
  arr_data : list matrix;
}.

(** An image object: its attributes.  [obj_pixels] is the address of the
    pixel array. *)
Record ImageObj := {
  obj_pixels : nat;
  obj_landmarks : gmap string (list (Q * Q));
  obj_path : option path;
}.

(** The heap: array objects and image objects, by address. *)
Record heap := {
  arrays : list ndarray;
  images : list ImageObj;
}.

Definition H (A : Type) : Type := heap → result A * heap.

Definition hret {A} (a : A) : H A := λ h, (Ok a, h).

Definition hbind {A B} (m : H A) (k : A → H B) : H B :=
  λ h,
    match m h with
    | (Ok a, h') => k a h'
    | (Raise e, h') => (Raise e, h')
    end.

Declare Scope H_scope.
Delimit Scope H_scope with H.
Notation "'let*' x ':=' m 'in' k" := (hbind m (λ x, k))
  (at level 10, x name, m at level 100, k at level 200) : H_scope.

Definition read_array (a : nat) : H ndarray :=
  λ h, (match arrays h !! a with
        | Some v => Ok v
        | None => Raise (ExternalError "no such array")
        end, h).

Definition read_image (l : nat) : H ImageObj :=
  λ h, (match images h !! l with
        | Some o => Ok o
        | None => Raise (ExternalError "no such image")
        end, h).

Definition alloc_array (v : ndarray) : H nat :=
  λ h, (Ok (length (arrays h)),
        {| arrays := arrays h ++ [v]; images := images h |}).

Definition alloc_image (o : ImageObj) : H nat :=
  λ h, (Ok (length (images h)),
        {| arrays := arrays h; images := images h ++ [o] |}).

(** [img.pixels = a]: the attribute of the object at [l] is rebound. *)
Definition set_pixels (l a : nat) : H unit :=
  λ h, (Ok (),
        {| arrays := arrays h;
           images := alter (λ o, {| obj_pixels := a;
                                    obj_landmarks := obj_landmarks o;
                                    obj_path := obj_path o |}) l (images h) |}).

Section Heap.
Context `{Externals}.

Local Open Scope H_scope.

(** [a.astype(np.float32)]: a new array. *)
Definition astype_float32 (a : ndarray) : ndarray :=
  {| arr_dtype := float32;
     arr_data := map (map (map to_float32)) (arr_data a) |}.

(** [img.copy()]: a new object; its arrays are copied, its landmarks are
    copied (they are values here), other attributes are shared. *)
Definition copy_image (img : nat) : H nat :=
  let* o := read_image img in
  let* a := read_array (obj_pixels o) in
  let* a' := alloc_array a in
  alloc_image {| obj_pixels := a';
                 obj_landmarks := obj_landmarks o;
                 obj_path := obj_path o |}.

Definition as_float32 (img : nat) : H nat :=
  let* img := copy_image img in
  let* o := read_image img in
  let* a := read_array (obj_pixels o) in
  let* a32 := alloc_array (astype_float32 a) in
  let* _ := set_pixels img a32 in
  hret img.
End Heap.

(** ** What is assumed of the rescale of the imaging library *)

Section Contracts.
Context `{Externals}.

(** The landmarks of the image it returns are those of the image it
    received, each moved by the pseudo-inverse of the transform it
    returns. *)
Definition rescale_warps_landmarks : Prop :=
  ∀ img d img' tr,
    rescale_landmarks_to_diagonal_range img d = Ok (img', tr) →
    ∀ group pc pc',
      landmarks img !! group = Some pc →
      landmarks img' !! group = Some pc' →
      Forall2 (λ p q, (fst q == fst (apply_pseudoinverse tr p))%Q ∧
                      (snd q == snd (apply_pseudoinverse tr p))%Q) pc pc'.

(** A vertex [r'] of the normalised mesh is the vertex [r] of the mesh
    read from disk with its three coordinates multiplied by [s]. *)
Definition scaled_vertex (s : Q) (r r' : list Q) : Prop :=
  ∃ y x z y' x' z',
    r = [y; x; z] ∧ r' = [y'; x'; z'] ∧
    (y' == s * y)%Q ∧ (x' == s * x)%Q ∧ (z' == s * z)%Q.
End Contracts.

(** ** How a computation uses the process state *)

Section CacheDiscipline.
Context `{Externals}.

(** [m] neither reads nor changes the process state. *)
Definition purely {A} (m : M A) : Prop :=
  ∀ w st, snd (m w st) = st ∧ fst (m w st) = fst (m w fresh_process).

(** The state in which the triangle list [t] has just been stored. *)
Definition stored (t : matrix) (st : pstate) : pstate :=
  {| trilist_cache := Some t; trilist_loads := S (trilist_loads st) |}.

(** The files [w] hold the triangle list [t]. *)
Definition provides (w : world) (t : matrix) : Prop :=
  fst (load_trilist_body w fresh_process) = Ok t.

(** [s] can follow [st] in a process that runs on the files [w]: the
    cache is as it was, or it was empty and now holds the list of [w]. *)
Definition later (w : world) (st s : pstate) : Prop :=
  trilist_cache s = trilist_cache st ∨
  (trilist_cache st = None ∧ ∃ t, trilist_cache s = Some t ∧ provides w t).

(** [m] touches the state only through the cache of the triangle list.
    After a run on the files [w], any later run on the same files has
    the same outcome.  With a stored list [t] the state stays as it is
    and a returned value carries [t]; with an empty cache either
    nothing is stored and nothing is returned, or the list of [w] is
    stored and a returned value carries it.  [tri_of] reads the
    triangle list of a returned value. *)
Definition respects_cache {A} (tri_of : A → matrix) (m : M A) : Prop :=
  ∀ w st r st1,
    m w st = (r, st1) →
    (∀ s, later w st1 s → fst (m w s) = r) ∧
    match trilist_cache st with
    | Some t => st1 = st ∧ ∀ a, r = Ok a → tri_of a = t
    | None =>
        (st1 = st ∧ ∀ a, r ≠ Ok a) ∨
        (∃ t, provides w t ∧ st1 = stored t st ∧
              ∀ a, r = Ok a → tri_of a = t)
    end.

(** The triangle list of a sample. *)
Definition tri3 (x : Image * Image * TriMesh) : matrix := trilist (snd x).

(** Every mesh among the results [rs] carries the triangle list [t]. *)
Definition all_carry (t : matrix)
    (rs : list (result (Image * Image * TriMesh))) : Prop :=
  Forall (λ r, ∀ x, r = Ok x → tri3 x = t) rs.

(** No sample is among the results [rs]. *)
Definition none_returned (rs : list (result (Image * Image * TriMesh)))
  : Prop :=
  Forall (λ r, ∀ x, r ≠ Ok x) rs.

(** The accesses [js] of a process whose files stay [w]. *)
Definition on_files (w : world) (js : list Z) : list (world * Z) :=
  map (λ j, (w, j)) js.
End CacheDiscipline.

(** ** Objects on the heap: the triangle list of a mesh

    Whether two meshes hold one array is a question of objects, not of
    values.  The heap below holds arrays by address, together with the
    slot of the [lru_cache], which keeps the address of the array that
    [load_trilist] returned. *)

Record tri_heap := {
  tri_arrays : list matrix;
  tri_slot : option nat;
}.

Definition empty_tri_heap : tri_heap :=
  {| tri_arrays := []; tri_slot := None |}.

Section MeshObjects.
Context `{Externals}.

(** [load_trilist()]: the stored array is returned as it is; otherwise
    the body builds a new array from the files, and it is stored. *)
Definition load_trilist_object (w : world) (h : tri_heap)
  : result nat * tri_heap :=
  match tri_slot h with
  | Some a => (Ok a, h)
  | None =>
      match fst (load_trilist_body w fresh_process) with
      | Ok t =>
          (Ok (length (tri_arrays h)),
           {| tri_arrays := tri_arrays h ++ [t];
              tri_slot := Some (length (tri_arrays h)) |})
      | Raise e => (Raise e, h)
      end
  end.

(** [TriMesh(points, trilist=a)]: the constructor copies the array it is
    given (its argument [copy] is true unless stated); the result is the
    address of the array that the mesh holds. *)
Definition trimesh_trilist (a : nat) (h : tri_heap)
  : result nat * tri_heap :=
  match tri_arrays h !! a with
  | Some t =>
      (Ok (length (tri_arrays h)),
       {| tri_arrays := tri_arrays h ++ [t]; tri_slot := tri_slot h |})
  | None => (Raise IndexError, h)
  end.

(** The triangle list of the mesh that
    [convert_raw_3d_fit_to_img_trimesh_fit] returns:
    [TriMesh(img_points_3d, trilist=load_trilist())]. *)
Definition mesh_trilist_object (w : world) (h : tri_heap)
  : result nat * tri_heap :=
  match load_trilist_object w h with
  | (Ok a, h') => trimesh_trilist a h'
  | (Raise e, h') => (Raise e, h')
  end.

(** The heap [h] stands for the process state [st]: the slot of the
    cache holds the address of an array with the content that [st] has
    in its cache. *)
Definition tri_heap_represents (h : tri_heap) (st : pstate) : Prop :=
  match tri_slot h, trilist_cache st with
  | Some c, Some t => tri_arrays h !! c = Some t
  | None, None => True
  | _, _ => False
  end.
End MeshObjects.

(** ** The rest of the notebook: the training sequence *)

Section Training.
Context `{Externals}.

Local Open Scope M_scope.

(** [as_float32] seen on images as values: the pixels are cast, the
    other attributes are kept.  [as_float32] itself, on objects, is in
    the section on the heap; the two are related in the properties. *)
Definition as_float32_image (img : Image) : Image :=
  {| pixels := map (map (map to_float32)) (pixels img);
     landmarks := landmarks img |}.

(** [features_and_fits_32bit =
     features_and_fits.map(lambda x: (as_float32(x[0]), x[1]))] *)
Definition features_and_fits_32bit (img_paths : list path)
  : LazyList (Image * TriMesh) :=
  lazy_map (λ x, ret (as_float32_image (fst x), snd x))
           (features_and_fits img_paths).

Definition n_imgs_for_rpca : nat := 100.

(** [features_and_fits_32bit[:n_imgs_for_rpca]], the sequence handed to
    [generate_texture_model_from_image_3d_fits]. *)
Definition training_set (img_paths : list path) : LazyList (Image * TriMesh) :=
  slice_to n_imgs_for_rpca (features_and_fits_32bit img_paths).

(** The image that the object at [l] stands for: its pixels and its
    landmarks. *)
Definition image_at (h : heap) (l : nat) : option Image :=
  match images h !! l with
  | Some o =>
      match arrays h !! obj_pixels o with
      | Some a => Some {| pixels := arr_data a; landmarks := obj_landmarks o |}
      | None => None
      end
  | None => None
  end.

(** An element access of the notebook: of [imgs_features_and_fits], of
    [features_and_fits] or of the training sequence. *)
Inductive access :=
| OfSamples (i : Z)
| OfFeaturesAndFits (i : Z)
| OfTraining (i : Z).

(** The mesh of the element that an access returns. *)
Definition mesh_of_access (img_paths : list path) (a : access) : M TriMesh :=
  match a with
  | OfSamples i =>
      let* x := getitem (imgs_features_and_fits img_paths) i in ret (snd x)
  | OfFeaturesAndFits i =>
      let* x := getitem (features_and_fits img_paths) i in ret (snd x)
  | OfTraining i =>
      let* x := getitem (training_set img_paths) i in ret (snd x)
  end.

(** A session: accesses of any of the three sequences, each on the files
    as they are at that moment, threading the process state. *)
Fixpoint run_session (img_paths : list path) (trace : list (world * access))
    (st : pstate) : list (result TriMesh) * pstate :=
  match trace with
  | [] => ([], st)
  | (w, a) :: trace' =>
      let '(r, st') := mesh_of_access img_paths a w st in
      let '(rs, st'') := run_session img_paths trace' st' in
      (r :: rs, st'')
  end.

End Training.

(** ** The library routines in exact arithmetic

    The instance below realises the interface [Externals] after the
    imaging library, in exact arithmetic.
    - [as_greyscale()] converts an image of three channels by luminosity
      and raises [ValueError] on any other number of channels.
    - [rescale_landmarks_to_diagonal_range(d)] takes the scale
      [s = d / diagonal] from the bounding box of the only landmark
      group (defined here when that diagonal is rational).  The image it
      returns has [ceil (s * n)] pixels along an axis of [n] pixels; so
      that corner pixels stay corner pixels, the points of that axis are
      moved by the factor [(s * n - 1) / (n - 1)], not by [s].  The
      transform it returns is the inverse of that per-axis scale.  New
      pixels take the value of the nearest old one; interpolation is not
      modelled.
    - The feature is a parameter of the instance; [keep_grid] is a
      feature that keeps the pixels. *)

Module Exact.

Definition luminosity (r g b : matrix) : matrix :=
  zip_with (zip_with Qplus)
    (zip_with (zip_with (λ x y, (x * (2125 # 10000) + y * (7154 # 10000))%Q)) r g)
    (map (map (λ z, (z * (721 # 10000))%Q)) b).

Definition greyscale (img : Image) : result Image :=
  match pixels img with
  | [r; g; b] =>
      Ok {| pixels := [luminosity r g b]; landmarks := landmarks img |}
  | _ => Raise ValueError
  end.

(** The rational square root of [q], when there is one. *)
Definition exact_sqrt (q : Q) : option Q :=
  let r := (Z.sqrt (Qnum q * Z.pos (Qden q)) # Qden q)%Q in
  if Qeq_bool (r * r) q then Some r else None.

(** The factor by which the points along an axis of [n] pixels move when
    the image is scaled by [s]. *)
Definition axis_factor (s : Q) (n : nat) : Q :=
  ((s * inject_Z (Z.of_nat n) - 1) / (inject_Z (Z.of_nat n) - 1))%Q.

(** Resampling one axis to [ceil (s * n)] entries, entry [i] taken at
    the old position nearest to [i / f]. *)
Definition resample_axis {A} (s f : Q) (l : list A) : list A :=
  let n := Z.to_nat (Qceiling (s * inject_Z (Z.of_nat (length l)))) in
  omap (λ i, l !! (Z.to_nat (Qfloor (inject_Z (Z.of_nat i) / f + (1 # 2)))
                   `min` (length l - 1))%nat)
       (seq 0 n).

Definition resample (s fy fx : Q) (c : matrix) : matrix :=
  resample_axis s fy (map (resample_axis s fx) c).

Definition rescale (img : Image) (d : Q)
  : result (Image * NonUniformScale) :=
  match map_to_list (landmarks img) with
  | [(group, pts)] =>
      match exact_sqrt (landmarks_diag_sq pts) with
      | Some r =>
          let s := (d / r)%Q in
          if Qlt_le_dec 0 s then
            let fy := axis_factor s (fst (shape img)) in
            let fx := axis_factor s (snd (shape img)) in
            let tr := {| scale := [(/ fy)%Q; (/ fx)%Q] |} in
            Ok ({| pixels := map (resample s fy fx) (pixels img);
                   landmarks := {[ group := map (apply_pseudoinverse tr) pts ]} |},
                tr)
          else Raise ValueError
      | None => Raise (ExternalError "irrational scale")
      end
  | _ => Raise ValueError
  end.

Definition keep_grid (f : feature_fn) (img : Image) : result Image :=
  Ok {| pixels := pixels img; landmarks := landmarks img |}.

(** Rounding to a multiple of [2^-10]. *)
Definition round10 (q : Q) : Q :=
  (Qfloor (q * 1024 + (1 # 2)) # 1024)%Q.

Definition externals_with (f : feature_fn → Image → result Image)
  : Externals :=
  {| home := ["/"; "home"; "user"];
     as_greyscale := greyscale;
     rescale_landmarks_to_diagonal_range := rescale;
     feature := f;
     to_float32 := round10 |}.

Definition externals : Externals := externals_with keep_grid.

(** *** Files for the examples *)

Definition data_path : path := ["/"; "home"; "user"; "Dropbox"; "itwmm_src_data"].

Definition blank (h w : nat) : matrix := replicate h (replicate w 0%Q).

Definition model_info : gmap string matrix :=
  {[ "tri" := [[1; 2]; [2; 3]; [3; 4]]%Q ]}.

(** A fit of four vertices, the columns [(a, b, c)]; its projection has
    a bounding box of 72 by 54, hence the diagonal 90. *)
Definition raw_a : matrix :=
  [[1; 55; 1; 55]; [1; 1; 73; 73]; [5; 7; 9; 11]]%Q.

Definition fit_a : gmap string matrix := {[ "Fitted_Face" := raw_a ]}.

(** A colour image of [h] by [w] pixels. *)
Definition rgb (h w : nat) : Image :=
  {| pixels := [blank h w; blank h w; blank h w]; landmarks := ∅ |}.

Definition grey_4 : Image := {| pixels := [blank 4 4]; landmarks := ∅ |}.

(** The greyscale image of a colour image of 4 by 4 pixels. *)
Definition grey_of_rgb_4 : Image :=
  {| pixels := [luminosity (blank 4 4) (blank 4 4) (blank 4 4)];
     landmarks := ∅ |}.

(** A fit of two vertices, the columns [(a, b, c)] = (-2, 2, 0) and
    (1, 6, 0): a face that extends beyond the left border of the image. *)
Definition fit_d : gmap string matrix :=
  {[ "Fitted_Face" := [[-2; 1]; [2; 6]; [0; 0]]%Q ]}.

Definition img_a : path := data_path ++ ["300W-3D"; "AFW"; "a.jpg"].
Definition img_b : path := data_path ++ ["300W-3D"; "AFW"; "b.jpg"].
Definition img_c : path := data_path ++ ["300W-3D"; "AFW"; "c.jpg"].
Definition img_d : path := data_path ++ ["300W-3D"; "AFW"; "d.jpg"].
Definition fit_c : path := data_path ++ ["300W-3D-Face"; "AFW"; "c.mat"].

Definition tri_path : path :=
  data_path ++ ["300W-3D"; "Code"; "ModelGeneration"; "model_info.mat"].

(** [a.jpg], [b.jpg] and [d.jpg] have fits; the fit of [c.jpg] is
    missing. *)
Definition disk : world :=
  {[ tri_path := MatFile model_info;
     img_a := ImageFile (rgb 4 4);
     data_path ++ ["300W-3D-Face"; "AFW"; "a.mat"] := MatFile fit_a;
     img_b := ImageFile (rgb 3 5);
     data_path ++ ["300W-3D-Face"; "AFW"; "b.mat"] := MatFile fit_a;
     img_c := ImageFile (rgb 4 4);
     img_d := ImageFile (rgb 5 5);
     data_path ++ ["300W-3D-Face"; "AFW"; "d.mat"] := MatFile fit_d ]}.

(** The same files after the connectivity file has been replaced. *)
Definition disk_changed : world :=
  <[tri_path := MatFile {[ "tri" := [[4; 5]; [6; 7]; [8; 9]]%Q ]}]> disk.

Definition img_paths : list path := [img_a; img_b; img_c; img_d].

(** The triangle list that [disk] provides. *)
Definition tri_0 : matrix := [[1; 0; 2]; [2; 1; 3]]%Q.

(** A process in which the connectivity file changes between accesses. *)
Definition trace_1 : list (world * Z) :=
  [(disk, 0%Z); (disk_changed, 1%Z); (disk, 2%Z)].

(** A heap with one image object and its pixel array. *)
Definition heap_1 : heap :=
  {| arrays := [{| arr_dtype := float64; arr_data := [[[(1 # 3)%Q; 2%Q]]] |}];
     images := [{| obj_pixels := 0; obj_landmarks := ∅; obj_path := Some img_a |}] |}.

(** The files of [disk] with a fit of [a.jpg] that holds no variable. *)
Definition disk_without_key : world :=
  <[data_path ++ ["300W-3D-Face"; "AFW"; "a.mat"] := MatFile ∅]> disk.

(** The files of [disk] without the connectivity file. *)
Definition disk_without_tri : world := delete tri_path disk.

(** A session that visits the three sequences. *)
Definition session_1 : list (world * access) :=
  [(disk, OfFeaturesAndFits 0); (disk_changed, OfTraining 1);
   (disk, OfSamples (-4))].

End Exact.

(** * Properties *)

(** ** Lists and arrays *)

Lemma column_lookup (j : nat) (m : matrix) (i : nat) (r : list Q) :
  m !! i = Some r → column j m !! i = Some (nth j r 0%Q).
Proof.
  intros Hr. unfold column. rewrite list_lookup_fmap, Hr. reflexivity.
Qed.

Lemma transpose_length (m : matrix) : length (transpose m) = ncols m.
Proof. unfold transpose. rewrite length_map, length_seq. reflexivity. Qed.

Lemma transpose_lookup (m : matrix) (j : nat) :
  (j < ncols m)%nat → transpose m !! j = Some (column j m).
Proof.
  intros Hj. unfold transpose.
  rewrite list_lookup_fmap, lookup_seq_lt by assumption. reflexivity.
Qed.

Lemma nth_lookup_Q (l : list Q) (j : nat) (x : Q) :
  l !! j = Some x → nth j l 0%Q = x.
Proof.
  revert j. induction l as [|y l IH]; intros [|j] Hj; simpl in *;
    try discriminate.
  - congruence.
  - apply IH. exact Hj.
Qed.

(** ** The monad *)

Section MonadFacts.
Context `{Externals}.

Lemma bind_ok {A B} (m : M A) (k : A → M B) w st a st1 :
  m w st = (Ok a, st1) → bind m k w st = k a w st1.
Proof. intros Hm. unfold bind. rewrite Hm. reflexivity. Qed.

Lemma bind_raise {A B} (m : M A) (k : A → M B) w st e st1 :
  m w st = (Raise e, st1) → bind m k w st = (Raise e, st1).
Proof. intros Hm. unfold bind. rewrite Hm. reflexivity. Qed.

Lemma bind_lift_ok {A B} (r : result A) (k : A → M B) w st a :
  r = Ok a → bind (lift r) k w st = k a w st.
Proof. intros ->. reflexivity. Qed.

(** A successful [bind] decomposes into its two halves. *)
Lemma bind_inv_ok {A B} (m : M A) (k : A → M B) w st b st2 :
  bind m k w st = (Ok b, st2) →
  ∃ a st1, m w st = (Ok a, st1) ∧ k a w st1 = (Ok b, st2).
Proof.
  unfold bind. destruct (m w st) as [[a|e] st1]; intros Hk.
  - eauto.
  - discriminate.
Qed.

Lemma lift_inv_ok {A} (r : result A) w st a st1 :
  lift r w st = (Ok a, st1) → r = Ok a ∧ st1 = st.
Proof. unfold lift. intros [= -> ->]. auto. Qed.

Lemma ret_inv {A} (x : A) w st a st1 :
  ret x w st = (Ok a, st1) → a = x ∧ st1 = st.
Proof. unfold ret. intros [= -> ->]. auto. Qed.
End MonadFacts.

(** Decompose a successful run of monadic code, hypothesis by hypothesis. *)
Ltac invert_run :=
  repeat match goal with
  | Hb : bind _ _ _ _ = (Ok _, _) |- _ =>
      apply bind_inv_ok in Hb; destruct Hb as (? & ? & ? & Hb)
  | Hl : lift _ _ _ = (Ok _, _) |- _ =>
      apply lift_inv_ok in Hl; destruct Hl as [Hl ?]; subst
  | Hr : ret _ _ _ = (Ok _, _) |- _ =>
      apply ret_inv in Hr; destruct Hr as [? ?]; simplify_eq
  | Hm : (match ?x with (_, _) => _ end) _ _ = (Ok _, _) |- _ =>
      destruct x
  end.

(** ** The path of a fit *)

Lemma relative_to_app (base rest : path) :
  relative_to (base ++ rest) base = Ok rest.
Proof.
  induction base as [|x base IH]; [destruct rest; reflexivity|].
  cbn [app relative_to]. destruct (decide (x = x)); [exact IH|congruence].
Qed.

(** A name [stem.ext] whose extension has no dot splits at that dot. *)
Lemma split_last_dot_app (stem ext : string) :
  split_last_dot ext = None →
  split_last_dot (stem +:+ String "."%char ext) = Some (stem, ext).
Proof.
  intros Hext. induction stem as [|c stem IH].
  - change (split_last_dot (String "."%char ext) = Some (EmptyString, ext)).
    cbn [split_last_dot]. rewrite Hext. reflexivity.
  - change (split_last_dot (String c (stem +:+ String "."%char ext))
            = Some (String c stem, ext)).
    cbn [split_last_dot]. rewrite IH. reflexivity.
Qed.

Lemma with_suffix_replaces (dirs : path) (stem ext suffix : string) :
  stem ≠ EmptyString → ext ≠ EmptyString → split_last_dot ext = None →
  with_suffix (dirs ++ [stem +:+ String "."%char ext]) suffix
  = Ok (dirs ++ [stem +:+ suffix]).
Proof.
  intros Hstem Hext Hdot. unfold with_suffix.
  rewrite last_snoc, removelast_last.
  destruct (decide (_ = EmptyString)) as [Hempty|_].
  - destruct stem; [congruence|discriminate Hempty].
  - unfold with_suffix_name. rewrite (split_last_dot_app stem ext Hdot).
    destruct (decide _) as [_|Hno]; [reflexivity|].
    exfalso. apply Hno. split; assumption.
Qed.

Section FitPath.
Context `{Externals}.

(** The fit of an image lies at the same relative path in the tree
    [300W-3D-Face], with the extension replaced by [.mat]. *)
Lemma fit_path_of_image (dirs : path) (stem ext : string) :
  stem ≠ EmptyString → ext ≠ EmptyString → split_last_dot ext = None →
  fit_path_of (DATA_PATH ++ ["300W-3D"] ++ dirs ++ [stem +:+ String "."%char ext])
  = Ok (DATA_PATH ++ ["300W-3D-Face"] ++ dirs ++ [stem +:+ ".mat"]).
Proof.
  intros Hstem Hext Hdot. unfold fit_path_of.
  rewrite (app_assoc DATA_PATH ["300W-3D"]), relative_to_app. cbn [rbind].
  rewrite (with_suffix_replaces dirs stem ext ".mat" Hstem Hext Hdot).
  reflexivity.
Qed.

End FitPath.

(** ** The dataset loader: coordinates *)

Section Loader.
Context `{Externals}.

(** The stacked rows that [convert_raw_3d_fit_to_img_trimesh_fit]
    transposes, for a raw fit with rows [a], [b] and [c]. *)
Lemma convert_equation (a b c : list Q) (rest : matrix) (img : Image) w st :
  length b = length a → length c = length a →
  convert_raw_3d_fit_to_img_trimesh_fit (a :: b :: c :: rest) img w st
  = bind load_trilist
      (λ tri, ret {| points :=
                       transpose [scalar_sub (height img) (map (λ x, (x - 1)%Q) b);
                                  map (λ x, (x - 1)%Q) a;
                                  mul_scalar c (-1)];
                     trilist := tri |}) w st.
Proof.
  intros Hb Hc. unfold convert_raw_3d_fit_to_img_trimesh_fit, vstack_row.
  cbn -[Qminus Qmult height transpose mul_scalar scalar_sub load_trilist bind].
  erewrite !bind_lift_ok by reflexivity.
  destruct (decide _) as [_|Hn].
  - erewrite bind_lift_ok by reflexivity. reflexivity.
  - exfalso. apply Hn. right.
    unfold mul_scalar, scalar_sub. rewrite !length_map. congruence.
Qed.

(** C4. The loader turns a raw fit (rows [a], [b], [c]: 1-based MATLAB
    pixel coordinates and depth) on an image of height [H] into the
    mesh whose [j]-th vertex is [(H - (b_j - 1), a_j - 1, -c_j)]: the
    first two rows are swapped, 1 is subtracted, the vertical axis is
    inverted against the image height and the depth is negated.  The
    mesh is returned whenever the triangle list can be loaded. *)
Theorem convert_raw_fit_coordinates
    (a b c : list Q) (rest : matrix) (img : Image) w st tri st1 :
  length b = length a → length c = length a →
  load_trilist w st = (Ok tri, st1) →
  ∃ pts,
    convert_raw_3d_fit_to_img_trimesh_fit (a :: b :: c :: rest) img w st
    = (Ok {| points := pts; trilist := tri |}, st1) ∧
    length pts = length a ∧
    ∀ j aj bj cj,
      a !! j = Some aj → b !! j = Some bj → c !! j = Some cj →
      ∃ z, pts !! j = Some [(height img - (bj - 1))%Q; (aj - 1)%Q; z] ∧
           (z == - cj)%Q.
Proof.
  intros Hb Hc Htri. eexists. split; [|split].
  - rewrite convert_equation by assumption.
    erewrite bind_ok by exact Htri. reflexivity.
  - rewrite transpose_length. cbn [ncols]. unfold scalar_sub.
    rewrite !length_map. exact Hb.
  - intros j aj bj cj Ha Hbj Hcj. exists (cj * -1)%Q. split.
    + rewrite transpose_lookup.
      * unfold column. cbn [map]. unfold scalar_sub, mul_scalar.
        repeat f_equal.
        -- apply nth_lookup_Q. rewrite !list_lookup_fmap, Hbj. reflexivity.
        -- apply nth_lookup_Q. rewrite !list_lookup_fmap, Ha. reflexivity.
        -- apply nth_lookup_Q. rewrite !list_lookup_fmap, Hcj. reflexivity.
      * cbn [ncols]. unfold scalar_sub. rewrite !length_map, Hb.
        apply lookup_lt_Some in Ha. exact Ha.
    + ring.
Qed.

End Loader.

(** ** The cache of the triangle list *)

Section Cache.
Context `{Externals}.

Lemma purely_run {A} (m : M A) w st :
  purely m → m w st = (fst (m w fresh_process), st).
Proof.
  intros Hm. destruct (Hm w st) as [Hs Hf].
  destruct (m w st) as [r st1]. simpl in *. congruence.
Qed.

Lemma purely_lift {A} (r : result A) : purely (lift r).
Proof. intros w st. split; reflexivity. Qed.

Lemma purely_ret {A} (a : A) : purely (ret a).
Proof. intros w st. split; reflexivity. Qed.

Lemma purely_import_image p : purely (import_image p).
Proof.
  intros w st. unfold import_image.
  destruct (w !! p) as [[?|?]|]; split; reflexivity.
Qed.

Lemma purely_loadmat p : purely (loadmat p).
Proof.
  intros w st. unfold loadmat.
  destruct (w !! p) as [[?|?]|]; split; reflexivity.
Qed.

Lemma purely_bind {A B} (m : M A) (k : A → M B) :
  purely m → (∀ a, purely (k a)) → purely (bind m k).
Proof.
  intros Hm Hk w st. unfold bind.
  rewrite (purely_run m w st Hm), (purely_run m w fresh_process Hm).
  destruct (fst (m w fresh_process)) as [a|e]; [|split; reflexivity].
  apply Hk.
Qed.

Lemma load_trilist_body_purely : purely load_trilist_body.
Proof.
  unfold load_trilist_body.
  apply purely_bind; [apply purely_loadmat|]. intros vars.
  apply purely_bind; [apply purely_lift|]. intros tri.
  apply purely_bind; [apply purely_lift|]. intros flipped.
  apply purely_ret.
Qed.

(** What a call of [load_trilist] does, by the content of the cache. *)
Lemma load_trilist_cases w st :
  match trilist_cache st with
  | Some t => load_trilist w st = (Ok t, st)
  | None =>
      match fst (load_trilist_body w fresh_process) with
      | Ok t => load_trilist w st = (Ok t, stored t st)
      | Raise e => load_trilist w st = (Raise e, st)
      end
  end.
Proof.
  unfold load_trilist, lru_cache.
  destruct (trilist_cache st) as [t|] eqn:Hc; [reflexivity|].
  rewrite (purely_run _ w st load_trilist_body_purely).
  destruct (fst (load_trilist_body w fresh_process)); reflexivity.
Qed.

Lemma later_refl w st : later w st st.
Proof. left. reflexivity. Qed.

Lemma respects_load_trilist : respects_cache id load_trilist.
Proof.
  intros w st r st1 Hrun.
  pose proof (load_trilist_cases w st) as Hst.
  destruct (trilist_cache st) as [t|] eqn:Hc.
  - rewrite Hst in Hrun. injection Hrun as <- <-. split.
    + intros s [Hs|[Hs _]]; [|congruence].
      pose proof (load_trilist_cases w s) as Hagain.
      rewrite Hs, Hc in Hagain. rewrite Hagain. reflexivity.
    + split; [reflexivity|]. intros a [= ->]. reflexivity.
  - destruct (fst (load_trilist_body w fresh_process)) as [t|e] eqn:Hb;
      rewrite Hst in Hrun; injection Hrun as <- <-.
    + split.
      * intros s [Hs|[Hs _]]; [|discriminate].
        pose proof (load_trilist_cases w s) as Hagain.
        rewrite Hs in Hagain. simpl in Hagain. rewrite Hagain. reflexivity.
      * right. exists t. split; [exact Hb|]. split; [reflexivity|].
        intros a [= ->]. reflexivity.
    + split.
      * intros s [Hs|(_ & t & _ & Ht)].
        -- pose proof (load_trilist_cases w s) as Hagain.
           rewrite Hs, Hc, Hb in Hagain. rewrite Hagain. reflexivity.
        -- unfold provides in Ht. congruence.
      * left. split; [reflexivity|]. discriminate.
Qed.

(** A computation that does not touch the state and returns nothing
    respects the cache. *)
Lemma respects_raise {A} (tri_of : A → matrix) (e : exn) :
  respects_cache tri_of (lift (Raise e)).
Proof.
  intros w st r st1 [= <- <-]. split; [reflexivity|].
  destruct (trilist_cache st); [split; [reflexivity|discriminate]|].
  left. split; [reflexivity|discriminate].
Qed.

Lemma respects_prefix {A B} (tri_of : B → matrix) (m : M A) (k : A → M B) :
  purely m → (∀ a, respects_cache tri_of (k a)) →
  respects_cache tri_of (bind m k).
Proof.
  intros Hm Hk w st r st1. unfold bind.
  rewrite (purely_run m w st Hm).
  destruct (fst (m w fresh_process)) as [a|e] eqn:Hf.
  - intros Hrun. destruct (Hk a _ _ _ _ Hrun) as [Hlater Hcase].
    split; [|exact Hcase]. intros s Hs.
    rewrite (purely_run m w s Hm), Hf. apply Hlater. exact Hs.
  - intros [= <- <-]. split.
    + intros s _. rewrite (purely_run m w s Hm), Hf. reflexivity.
    + destruct (trilist_cache st); [split; [reflexivity|discriminate]|].
      left. split; [reflexivity|discriminate].
Qed.

Lemma respects_suffix {A B} (tri_a : A → matrix) (tri_b : B → matrix)
    (m : M A) (k : A → M B) :
  respects_cache tri_a m → (∀ a, purely (k a)) →
  (∀ a w st b st1, k a w st = (Ok b, st1) → tri_b b = tri_a a) →
  respects_cache tri_b (bind m k).
Proof.
  intros Hm Hk Htri w st r st2. unfold bind.
  destruct (m w st) as [[a|e] st1] eqn:Hrun.
  - destruct (Hm _ _ _ _ Hrun) as [Hlater Hcase].
    rewrite (purely_run (k a) w st1 (Hk a)). intros [= <- <-].
    split.
    + intros s Hs. specialize (Hlater s Hs).
      destruct (m w s) as [ra s1]. simpl in Hlater. subst ra.
      rewrite (purely_run (k a) w s1 (Hk a)). reflexivity.
    + assert (Hcarry : ∀ b, fst (k a w fresh_process) = Ok b →
                            tri_b b = tri_a a).
      { intros b Hb. apply (Htri a w fresh_process b fresh_process).
        rewrite (purely_run (k a) w fresh_process (Hk a)), Hb. reflexivity. }
      destruct (trilist_cache st) as [t|].
      * destruct Hcase as [-> Hcase]. split; [reflexivity|].
        intros b Hb. rewrite (Hcarry b Hb). apply Hcase. reflexivity.
      * destruct Hcase as [[_ Hno]|(t & Hw & -> & Hcase)].
        -- exfalso. apply (Hno a). reflexivity.
        -- right. exists t. split; [exact Hw|]. split; [reflexivity|].
           intros b Hb. rewrite (Hcarry b Hb). apply Hcase. reflexivity.
  - intros [= <- <-]. destruct (Hm _ _ _ _ Hrun) as [Hlater Hcase].
    split.
    + intros s Hs. specialize (Hlater s Hs).
      destruct (m w s) as [ra s1]. simpl in Hlater. subst ra. reflexivity.
    + destruct (trilist_cache st) as [t|].
      * destruct Hcase as [-> _]. split; [reflexivity|discriminate].
      * destruct Hcase as [[-> _]|(t & Hw & -> & _)].
        -- left. split; [reflexivity|discriminate].
        -- right. exists t. split; [exact Hw|].
           split; [reflexivity|discriminate].
Qed.

(** A run that respects the cache can be repeated from the state it
    leaves: same outcome, same state. *)
Lemma respects_replay {A} (tri_of : A → matrix) (m : M A) w st :
  respects_cache tri_of m → m w (snd (m w st)) = m w st.
Proof.
  intros Hm. destruct (m w st) as [r st1] eqn:Hrun. simpl.
  destruct (Hm _ _ _ _ Hrun) as [Hlater Hcase].
  specialize (Hlater st1 (later_refl w st1)).
  destruct (m w st1) as [r' st2] eqn:Hagain. simpl in Hlater. subst r'.
  f_equal.
  destruct (Hm _ _ _ _ Hagain) as [_ Hcase2].
  destruct (trilist_cache st1) as [t1|] eqn:Hc1.
  - destruct Hcase2 as [-> _]. reflexivity.
  - destruct (trilist_cache st) as [t|] eqn:Hc.
    + destruct Hcase as [-> _]. congruence.
    + destruct Hcase as [[-> _]|(t & _ & -> & _)]; [|discriminate].
      congruence.
Qed.

(** A step that respects the cache keeps a state among the later ones. *)
Lemma respects_later {A} (tri_of : A → matrix) (m : M A) w st0 s :
  respects_cache tri_of m → later w st0 s → later w st0 (snd (m w s)).
Proof.
  intros Hm Hs. destruct (m w s) as [r s1] eqn:Hrun. simpl.
  destruct (Hm _ _ _ _ Hrun) as [_ Hcase].
  destruct (trilist_cache s) as [t|] eqn:Hc.
  - destruct Hcase as [-> _]. exact Hs.
  - destruct Hcase as [[-> _]|(t & Hw & -> & _)]; [exact Hs|].
    right. destruct Hs as [Hs|(_ & t' & Ht' & _)]; [|congruence].
    split; [congruence|]. exists t. split; [reflexivity|exact Hw].
Qed.

End Cache.

(** ** The loader and the cache *)

Section LoaderState.
Context `{Externals}.

Lemma respects_convert raw img :
  respects_cache trilist (convert_raw_3d_fit_to_img_trimesh_fit raw img).
Proof.
  unfold convert_raw_3d_fit_to_img_trimesh_fit.
  apply respects_prefix; [apply purely_lift|]. intros row0.
  apply respects_prefix; [apply purely_lift|]. intros depth.
  apply respects_prefix; [apply purely_lift|]. intros stacked.
  apply (respects_suffix id); [apply respects_load_trilist| |].
  - intros tri. apply purely_ret.
  - intros tri w st mesh st1 [= <- _]. reflexivity.
Qed.

Lemma respects_load_img_and_fit p :
  respects_cache (λ x, trilist (snd x)) (load_img_and_fit p).
Proof.
  unfold load_img_and_fit.
  apply respects_prefix; [apply purely_lift|]. intros fit_path.
  apply respects_prefix; [apply purely_import_image|]. intros colour.
  apply respects_prefix; [apply purely_lift|]. intros img.
  apply respects_prefix; [apply purely_loadmat|]. intros vars.
  apply respects_prefix; [apply purely_lift|]. intros raw.
  apply (respects_suffix trilist); [apply respects_convert| |].
  - intros mesh. apply purely_ret.
  - intros mesh w st x st1 [= <- _]. reflexivity.
Qed.

Lemma respects_load_data p e :
  respects_cache tri3 (load_data_with_feature_sample p e).
Proof.
  unfold load_data_with_feature_sample.
  apply (respects_suffix (λ x, trilist (snd x)));
    [apply respects_load_img_and_fit| |].
  - intros [img fit].
    apply purely_bind; [apply purely_lift|]. intros fit_2d.
    apply purely_bind; [apply purely_lift|]. intros [img' tr].
    apply purely_bind; [apply purely_lift|]. intros rescaled.
    apply purely_bind; [apply purely_lift|]. intros pts.
    apply purely_bind; [apply purely_lift|]. intros scale0.
    apply purely_bind; [apply purely_lift|]. intros feat.
    apply purely_ret.
  - intros [img fit] w st b st1 Hrun. invert_run. reflexivity.
Qed.

End LoaderState.

(** ** The lazy sequence of samples *)

Section Sequence.
Context `{Externals}.

Lemma imgs_features_and_fits_lookup img_paths (k : nat) :
  imgs_features_and_fits img_paths !! k
  = (λ p, bind (ret p)
               (λ p, load_data_with_feature_sample p err_proportion_default))
    <$> img_paths !! k.
Proof.
  unfold imgs_features_and_fits, lazy_map, init_from_iterable.
  rewrite !list_lookup_fmap. destruct (img_paths !! k); reflexivity.
Qed.

Lemma imgs_features_and_fits_length img_paths :
  length (imgs_features_and_fits img_paths) = length img_paths.
Proof.
  unfold imgs_features_and_fits, lazy_map, init_from_iterable.
  rewrite !length_map. reflexivity.
Qed.

(** Indexing at a position that exists runs the loader on that path. *)
Lemma getitem_nat img_paths (k : nat) p :
  img_paths !! k = Some p →
  getitem (imgs_features_and_fits img_paths) (Z.of_nat k)
  = bind (ret p) (λ p, load_data_with_feature_sample p err_proportion_default).
Proof.
  intros Hp. unfold getitem.
  assert (Hneg : (Z.of_nat k <? 0)%Z = false) by (apply Z.ltb_ge; lia).
  cbv zeta. rewrite Hneg. cbv iota. rewrite Hneg.
  rewrite Nat2Z.id, imgs_features_and_fits_lookup, Hp. reflexivity.
Qed.

Lemma respects_getitem img_paths i :
  respects_cache tri3 (getitem (imgs_features_and_fits img_paths) i).
Proof.
  unfold getitem. destruct (_ <? 0)%Z; [apply respects_raise|].
  rewrite imgs_features_and_fits_lookup.
  destruct (img_paths !! _) as [p|]; simpl; [|apply respects_raise].
  apply respects_prefix; [apply purely_ret|]. intros q.
  apply respects_load_data.
Qed.

Lemma run_accesses_cons {A} (l : LazyList A) w i trace st :
  run_accesses l ((w, i) :: trace) st
  = (fst (getitem l i w st)
       :: fst (run_accesses l trace (snd (getitem l i w st))),
     snd (run_accesses l trace (snd (getitem l i w st)))).
Proof.
  simpl. destruct (getitem l i w st) as [r st1]. simpl.
  destruct (run_accesses l trace st1) as [rs st2]. reflexivity.
Qed.

Lemma run_accesses_later img_paths w st0 js s :
  later w st0 s →
  later w st0
    (snd (run_accesses (imgs_features_and_fits img_paths) (on_files w js) s)).
Proof.
  revert s. induction js as [|j js IH]; intros s Hs; [exact Hs|].
  unfold on_files. cbn [map]. rewrite run_accesses_cons. cbn [snd].
  apply IH. eapply respects_later; [apply respects_getitem|exact Hs].
Qed.

(** What a process does to the cache and which lists its meshes carry,
    from any state. *)
Lemma run_accesses_cache img_paths trace st0 :
  let run := run_accesses (imgs_features_and_fits img_paths) trace st0 in
  match trilist_cache st0 with
  | Some t => snd run = st0 ∧ all_carry t (fst run)
  | None =>
      (snd run = st0 ∧ none_returned (fst run)) ∨
      (∃ t, trilist_cache (snd run) = Some t ∧
            trilist_loads (snd run) = S (trilist_loads st0) ∧
            all_carry t (fst run))
  end.
Proof.
  revert st0. induction trace as [|[w i] trace IH]; intros st0.
  - simpl. destruct (trilist_cache st0); [split; [reflexivity|constructor]|].
    left. split; [reflexivity|constructor].
  - cbv zeta. rewrite run_accesses_cons. cbn [fst snd].
    destruct (getitem _ i w st0) as [r st1] eqn:Hrun. cbn [fst snd].
    destruct (respects_getitem img_paths i _ _ _ _ Hrun) as [_ Hcase].
    specialize (IH st1). cbv zeta in IH.
    destruct (trilist_cache st0) as [t|] eqn:Hc.
    + destruct Hcase as [-> Hr]. rewrite Hc in IH. destruct IH as [IH1 IH2].
      split; [exact IH1|]. constructor; [exact Hr|exact IH2].
    + destruct Hcase as [[-> Hr]|(t & _ & -> & Hr)].
      * rewrite Hc in IH. destruct IH as [[IH1 IH2]|(t & IH1 & IH2 & IH3)].
        -- left. split; [exact IH1|]. constructor; [exact Hr|exact IH2].
        -- right. exists t. split; [exact IH1|]. split; [exact IH2|].
           constructor; [|exact IH3]. intros x Hx. destruct (Hr x Hx).
      * simpl in IH. destruct IH as [IH1 IH2]. right. exists t.
        rewrite IH1. split; [reflexivity|]. split; [reflexivity|].
        constructor; [exact Hr|exact IH2].
Qed.

End Sequence.

(** ** Properties of the loader and of the lazy sequence *)

Section Claims.
Context `{Externals}.

(** C5. When the fit file of an image path is missing, the lazy
    sequence is still built (it has one element per path, and building
    it reads no file); accessing the element of that path raises, and
    the error is the missing-file error of the fit as soon as the image
    itself can be read; the failed access leaves the process state as
    it was, so that any other index is then accessed exactly as if the
    failure had not happened. *)
Theorem missing_fit_raises_at_access
    (img_paths : list path) (i : nat) (p fp : path) (w : world) (st : pstate) :
  img_paths !! i = Some p →
  fit_path_of p = Ok fp →
  w !! fp = None →
  let l := imgs_features_and_fits img_paths in
  length l = length img_paths ∧
  ∃ e,
    getitem l (Z.of_nat i) w st = (Raise e, st) ∧
    (∀ colour img, w !! p = Some (ImageFile colour) →
                   as_greyscale colour = Ok img →
                   e = FileNotFoundError fp) ∧
    ∀ w' j,
      run_accesses l [(w, Z.of_nat i); (w', j)] st
      = ([Raise e; fst (getitem l j w' st)], snd (getitem l j w' st)).
Proof.
  intros Hp Hfp Hmissing l. split; [apply imgs_features_and_fits_length|].
  assert (Hrun : ∃ e, getitem l (Z.of_nat i) w st = (Raise e, st) ∧
                      ∀ colour img, w !! p = Some (ImageFile colour) →
                                    as_greyscale colour = Ok img →
                                    e = FileNotFoundError fp).
  { subst l. rewrite (getitem_nat img_paths i p Hp).
    unfold load_data_with_feature_sample, load_img_and_fit.
    unfold bind at 1. cbn [ret]. unfold bind at 1. unfold bind at 1.
    rewrite Hfp. cbn [lift]. unfold bind at 1. unfold import_image.
    destruct (w !! p) as [[colour|vars]|] eqn:Himg.
    - unfold bind at 1. cbn [lift].
      destruct (as_greyscale colour) as [img|e] eqn:Hgrey.
      + unfold bind at 1. unfold loadmat. rewrite Hmissing.
        eexists. split; [reflexivity|]. intros; reflexivity.
      + eexists. split; [reflexivity|]. intros colour' img' [= <-].
        congruence.
    - eexists. split; [reflexivity|]. intros ? ? [=].
    - eexists. split; [reflexivity|]. intros ? ? [=]. }
  destruct Hrun as (e & Hrun & Herr). exists e.
  split; [exact Hrun|]. split; [exact Herr|].
  intros w' j. rewrite run_accesses_cons, Hrun. cbn [fst snd].
  rewrite run_accesses_cons. reflexivity.
Qed.

(** Files that provide a triangle list hold a connectivity file whose
    array [tri] has three rows or more, and the list is made of them. *)
Lemma provides_inv (w : world) (t : matrix) :
  provides w t →
  ∃ vars t0 t1 t2 rest,
    w !! (DATA_PATH ++ ["300W-3D"; "Code"; "ModelGeneration"; "model_info.mat"])
    = Some (MatFile vars) ∧
    vars !! "tri" = Some (t0 :: t1 :: t2 :: rest) ∧
    t = sub_scalar (transpose [t1; t0; t2]) 1.
Proof.
  unfold provides, load_trilist_body, bind, loadmat, lift, ret, dict_get.
  destruct (w !! _) as [[img|vars]|] eqn:Hw; cbn [fst]; try discriminate.
  destruct (vars !! "tri") as [tri|] eqn:Hv; cbn [fst]; [|discriminate].
  destruct tri as [|t0 [|t1 [|t2 rest]]]; try discriminate.
  cbn. intros [= <-]. exists vars, t0, t1, t2, rest.
  split; [reflexivity|]. split; [exact Hv|reflexivity].
Qed.

(** In a process that starts with an empty cache, the list that the
    meshes carry is the one provided by the files of one access, and no
    sample is produced before that access. *)
Lemma run_accesses_source img_paths trace st0 :
  trilist_cache st0 = None →
  let run := run_accesses (imgs_features_and_fits img_paths) trace st0 in
  (snd run = st0 ∧ none_returned (fst run)) ∨
  (∃ k w j t,
     trace !! k = Some (w, j) ∧ provides w t ∧
     trilist_cache (snd run) = Some t ∧
     trilist_loads (snd run) = S (trilist_loads st0) ∧
     all_carry t (fst run) ∧
     ∀ i x, fst run !! i = Some (Ok x) → (k ≤ i)%nat).
Proof.
  intros Hc. induction trace as [|[w i] trace IH].
  - left. split; [reflexivity|constructor].
  - cbv zeta. rewrite run_accesses_cons. cbn [fst snd].
    destruct (getitem _ i w st0) as [r st1] eqn:Hrun. cbn [fst snd].
    destruct (respects_getitem img_paths i _ _ _ _ Hrun) as [_ Hcase].
    rewrite Hc in Hcase.
    destruct Hcase as [[-> Hr]|(t & Ht & -> & Hr)].
    + cbv zeta in IH.
      destruct IH as [[IH1 IH2]|(k & w' & j & t & Hk & Ht & IH1 & IH2 & IH3 & IH4)].
      * left. split; [exact IH1|]. constructor; [exact Hr|exact IH2].
      * right. exists (S k), w', j, t. split; [exact Hk|]. split; [exact Ht|].
        split; [exact IH1|]. split; [exact IH2|]. split.
        -- constructor; [|exact IH3]. intros x Hx. destruct (Hr x Hx).
        -- intros [|i'] x Hi.
           ++ injection Hi as Hi. destruct (Hr x Hi).
           ++ apply le_n_S. apply (IH4 i' x). exact Hi.
    + pose proof (run_accesses_cache img_paths trace (stored t st0)) as Hrest.
      cbv zeta in Hrest. cbn [trilist_cache stored] in Hrest.
      destruct Hrest as [Hst Hall].
      right. exists 0%nat, w, i, t. split; [reflexivity|]. split; [exact Ht|].
      rewrite Hst. split; [reflexivity|]. split; [reflexivity|]. split.
      * constructor; [exact Hr|exact Hall].
      * intros i' x _. apply Nat.le_0_l.
Qed.

(** C6, as amended.  In any process (any sequence of element accesses,
    whatever the files are at each access), the connectivity file is
    loaded at most once, exactly once as soon as one sample has been
    produced.  The load happens during one access, not later than the
    first access that produces a sample, and every mesh produced in the
    process carries the list made at that load from the array [tri]
    that the connectivity file held then: the triangles
    [(t1_k - 1, t0_k - 1, t2_k - 1)] of its first three rows.  Hence any
    two meshes produced carry triangle lists that are equal. *)
Theorem trilist_loaded_once_from_the_file
    (img_paths : list path) (trace : list (world * Z)) :
  let run :=
    run_accesses (imgs_features_and_fits img_paths) trace fresh_process in
  (trilist_loads (snd run) ≤ 1)%nat ∧
  (∀ i x,
     fst run !! i = Some (Ok x) →
     trilist_loads (snd run) = 1%nat ∧
     ∃ k w j vars t0 t1 t2 rest,
       trace !! k = Some (w, j) ∧
       w !! (DATA_PATH ++
               ["300W-3D"; "Code"; "ModelGeneration"; "model_info.mat"])
       = Some (MatFile vars) ∧
       vars !! "tri" = Some (t0 :: t1 :: t2 :: rest) ∧
       ∀ i' x',
         fst run !! i' = Some (Ok x') →
         (k ≤ i')%nat ∧
         trilist (snd x') = sub_scalar (transpose [t1; t0; t2]) 1) ∧
  (∀ i j x y,
     fst run !! i = Some (Ok x) → fst run !! j = Some (Ok y) →
     trilist (snd x) = trilist (snd y)).
Proof.
  intros run.
  pose proof (run_accesses_source img_paths trace fresh_process eq_refl) as Hinv.
  cbv zeta in Hinv. fold run in Hinv.
  destruct Hinv as [[Hst Hnone]|(k & w & j & t & Hk & Ht & Hc & Hn & Hall & Hfirst)].
  - rewrite Hst. cbn [trilist_loads fresh_process].
    assert (Hno : ∀ i x, fst run !! i = Some (Ok x) → False).
    { intros i x Hi. unfold none_returned in Hnone.
      rewrite Forall_lookup in Hnone. apply (Hnone i _ Hi x). reflexivity. }
    split; [lia|]. split.
    + intros i x Hi. destruct (Hno i x Hi).
    + intros i j' x y Hi _. destruct (Hno i x Hi).
  - rewrite Hn. cbn [trilist_loads fresh_process].
    unfold all_carry in Hall. rewrite Forall_lookup in Hall.
    split; [lia|]. split.
    + intros i x Hi. split; [reflexivity|].
      destruct (provides_inv w t Ht) as (vars & t0 & t1 & t2 & rest & Hw & Hv & ->).
      exists k, w, j, vars, t0, t1, t2, rest.
      split; [exact Hk|]. split; [exact Hw|]. split; [exact Hv|].
      intros i' x' Hi'. split; [exact (Hfirst i' x' Hi')|].
      exact (Hall i' _ Hi' x' eq_refl).
    + intros i j' x y Hi Hj.
      pose proof (Hall i _ Hi x eq_refl) as Hx.
      pose proof (Hall j' _ Hj y eq_refl) as Hy.
      unfold tri3 in Hx, Hy. congruence.
Qed.

(** C7. The lazy sequence is restartable: on unchanged files, accessing
    an index again gives the same result (the same images, mesh points
    and connectivity, or the same error) and leaves the same state, and
    this is so also when other elements are accessed in between. *)
Theorem lazy_sequence_restartable
    (img_paths : list path) (i : Z) (w : world) (st : pstate) (js : list Z) :
  let l := imgs_features_and_fits img_paths in
  getitem l i w (snd (getitem l i w st)) = getitem l i w st ∧
  fst (getitem l i w
         (snd (run_accesses l (on_files w js) (snd (getitem l i w st)))))
  = fst (getitem l i w st).
Proof.
  intros l. split.
  - apply (respects_replay tri3). apply respects_getitem.
  - destruct (getitem l i w st) as [r st1] eqn:Hrun. cbn [fst snd].
    destruct (respects_getitem img_paths i _ _ _ _ Hrun) as [Hlater _].
    apply Hlater. apply run_accesses_later. apply later_refl.
Qed.

(** C10. [load_data_with_feature_sample] does not depend on its
    parameter [err_proportion]. *)
Theorem err_proportion_has_no_effect (img_path : path) (e1 e2 : Q)
    (w : world) (st : pstate) :
  load_data_with_feature_sample img_path e1 w st
  = load_data_with_feature_sample img_path e2 w st.
Proof. reflexivity. Qed.

End Claims.

(** ** The export cell *)

Section ExportClaims.
Context `{Externals} {Model : Type}.

(** C8. The exported object is the dictionary with exactly the three
    keys [texture_model], [diagonal_range] and [feature_function]; it
    holds the texture model passed to the cell, the diagonal constant
    that the normalisation uses ([DIAGONAL_RANGE]) and the feature
    function that the normalisation applies ([FEATURE_F]); it is what
    the file [itw_texture_model.pkl] holds after the cell has run. *)
Theorem export_records_what_was_used
    (itw_texture_model : Model)
    (disk : gmap path (gmap string (pyvalue Model))) :
  let obj := exported_object itw_texture_model in
  export_cell itw_texture_model disk !! (DATA_PATH ++ ["itw_texture_model.pkl"])
  = Some obj ∧
  dom obj = {[ "texture_model"; "diagonal_range"; "feature_function" ]} ∧
  obj !! "texture_model" = Some (PyModel itw_texture_model) ∧
  obj !! "diagonal_range" = Some (PyInt DIAGONAL_RANGE) ∧
  obj !! "feature_function" = Some (PyFeature FEATURE_F).
Proof.
  intros obj. split; [|split; [|split; [|split]]].
  - unfold export_cell, export_pickle. apply lookup_insert_eq.
  - subst obj. unfold exported_object.
    rewrite !dom_insert_L, dom_singleton_L. set_solver.
  - subst obj. unfold exported_object. apply lookup_insert_eq.
  - subst obj. unfold exported_object, DIAGONAL_RANGE.
    rewrite lookup_insert_ne by discriminate. apply lookup_insert_eq.
  - subst obj. unfold exported_object, FEATURE_F.
    rewrite !lookup_insert_ne by discriminate. apply lookup_singleton_eq.
Qed.

End ExportClaims.

(** ** Objects: [as_float32] *)

Section HeapClaims.
Context `{Externals}.

(** The heap that a call of [as_float32] leaves. *)
Lemma as_float32_run (h : heap) (img : nat) (o : ImageObj) (a : ndarray) :
  images h !! img = Some o → arrays h !! obj_pixels o = Some a →
  as_float32 img h
  = (Ok (length (images h)),
     {| arrays := (arrays h ++ [a]) ++ [astype_float32 a];
        images := images h ++
                  [{| obj_pixels := S (length (arrays h));
                      obj_landmarks := obj_landmarks o;
                      obj_path := obj_path o |}] |}).
Proof.
  intros Himg Harr.
  unfold as_float32, copy_image, hbind, read_image, read_array,
    alloc_array, alloc_image, set_pixels, hret.
  rewrite Himg, Harr. cbn [arrays images obj_pixels obj_landmarks obj_path].
  rewrite (list_lookup_middle (images h) [] _ (length (images h)) eq_refl).
  cbn [obj_pixels obj_landmarks obj_path].
  rewrite (list_lookup_middle (arrays h) [] _ (length (arrays h)) eq_refl).
  cbn [arrays images obj_pixels obj_landmarks obj_path].
  assert (Hlen : length (arrays h ++ [a]) = S (length (arrays h)))
    by (rewrite length_app; cbn [length]; lia).
  rewrite Hlen, alter_app_r_alt by lia. rewrite Nat.sub_diag. reflexivity.
Qed.

(** C9. [as_float32] does not change its input: after the call the
    image object passed to it and its pixel array (values and element
    type) are as before, and so is every object that existed before the
    call.  The result is a new image object whose pixels are a new
    array, the 32-bit cast of the input's pixels; its other attributes
    are those of the input. *)
Theorem as_float32_leaves_input_unchanged
    (h : heap) (img : nat) (o : ImageObj) (a : ndarray) :
  images h !! img = Some o → arrays h !! obj_pixels o = Some a →
  ∃ img' h' o',
    as_float32 img h = (Ok img', h') ∧
    images h' !! img = Some o ∧
    arrays h' !! obj_pixels o = Some a ∧
    (∀ l, (l < length (images h))%nat → images h' !! l = images h !! l) ∧
    (∀ l, (l < length (arrays h))%nat → arrays h' !! l = arrays h !! l) ∧
    img' ≠ img ∧
    images h' !! img' = Some o' ∧
    obj_pixels o' ≠ obj_pixels o ∧
    arrays h' !! obj_pixels o' = Some (astype_float32 a) ∧
    arr_dtype (astype_float32 a) = float32 ∧
    arr_data (astype_float32 a) = map (map (map to_float32)) (arr_data a) ∧
    obj_landmarks o' = obj_landmarks o ∧
    obj_path o' = obj_path o.
Proof.
  intros Himg Harr.
  pose proof (lookup_lt_Some _ _ _ Himg) as Hli.
  pose proof (lookup_lt_Some _ _ _ Harr) as Hla.
  eexists _, _, {| obj_pixels := S (length (arrays h));
                   obj_landmarks := obj_landmarks o;
                   obj_path := obj_path o |}.
  split; [apply (as_float32_run h img o a Himg Harr)|].
  cbn [arrays images].
  split; [|split; [|split; [|split; [|split; [|split; [|split]]]]]].
  - rewrite lookup_app_l by assumption. exact Himg.
  - rewrite <- app_assoc, lookup_app_l by assumption. exact Harr.
  - intros l Hl. rewrite lookup_app_l by assumption. reflexivity.
  - intros l Hl. rewrite <- app_assoc, lookup_app_l by assumption. reflexivity.
  - lia.
  - apply list_lookup_middle. reflexivity.
  - cbn [obj_pixels]. lia.
  - cbn [obj_pixels]. split; [|repeat split].
    apply list_lookup_middle. rewrite length_app. cbn [length]. lia.
Qed.

End HeapClaims.

(** ** The normalisation step *)

Section Normalisation.
Context `{Externals}.

(** The mesh that the loader builds has three coordinates per vertex. *)
Lemma convert_points_width raw img w st mesh st1 :
  convert_raw_3d_fit_to_img_trimesh_fit raw img w st = (Ok mesh, st1) →
  width_is 3 (points mesh).
Proof.
  unfold convert_raw_3d_fit_to_img_trimesh_fit. intros Hrun. invert_run.
  cbn [points]. unfold vstack_row in *.
  match goal with
  | Hv : (if ?d then _ else _) = Ok _ |- _ =>
      destruct d; [injection Hv as <-|discriminate Hv]
  end.
  match goal with
  | Hd : row_at raw 2 = Ok _ |- _ =>
      unfold row_at in Hd; destruct (raw !! 2%nat) eqn:Hraw; [|discriminate Hd]
  end.
  apply lookup_lt_Some in Hraw.
  unfold width_is, transpose. apply Forall_forall. intros r Hr.
  apply list_elem_of_In, in_map_iff in Hr. destruct Hr as (j & <- & _).
  unfold column. rewrite length_map, length_app, length_insert.
  unfold sub_scalar. rewrite length_map, length_reverse, length_take.
  cbn [length]. lia.
Qed.

Lemma load_img_and_fit_width p w st img fit st1 :
  load_img_and_fit p w st = (Ok (img, fit), st1) → width_is 3 (points fit).
Proof.
  unfold load_img_and_fit. intros Hrun. invert_run.
  eapply convert_points_width. eassumption.
Qed.

(** A successful run of the normalisation step, step by step. *)
Lemma load_data_inv p e w st img feat mesh st1 :
  load_data_with_feature_sample p e w st = (Ok (img, feat, mesh), st1) →
  ∃ img0 fit fit_2d tr rescaled pts scale0,
    load_img_and_fit p w st = (Ok (img0, fit), st1) ∧
    point_cloud_2d (map (take 2) (points fit)) = Ok fit_2d ∧
    rescale_landmarks_to_diagonal_range
      (set_landmarks img0 "fit_2d" fit_2d) (inject_Z DIAGONAL_RANGE)
    = Ok (img, tr) ∧
    landmarks img !! "fit_2d" = Some rescaled ∧
    assign_first_two (points fit) (pc_points rescaled) = Ok pts ∧
    scale tr !! 0%nat = Some scale0 ∧
    feature FEATURE_F img = Ok feat ∧
    mesh = {| points := divide_third pts scale0; trilist := trilist fit |}.
Proof.
  unfold load_data_with_feature_sample. intros Hrun.
  apply bind_inv_ok in Hrun. destruct Hrun as ([img0 fit] & st2 & Hload & Hrun).
  apply bind_inv_ok in Hrun. destruct Hrun as (fit_2d & st3 & Hpc & Hrun).
  apply lift_inv_ok in Hpc. destruct Hpc as [Hpc ->].
  apply bind_inv_ok in Hrun. destruct Hrun as ([img' tr] & st4 & Hres & Hrun).
  apply lift_inv_ok in Hres. destruct Hres as [Hres ->].
  apply bind_inv_ok in Hrun. destruct Hrun as (rescaled & st5 & Hlm & Hrun).
  apply lift_inv_ok in Hlm. destruct Hlm as [Hlm ->].
  apply bind_inv_ok in Hrun. destruct Hrun as (pts & st6 & Hpts & Hrun).
  apply lift_inv_ok in Hpts. destruct Hpts as [Hpts ->].
  apply bind_inv_ok in Hrun. destruct Hrun as (scale0 & st7 & Hsc & Hrun).
  apply lift_inv_ok in Hsc. destruct Hsc as [Hsc ->].
  apply bind_inv_ok in Hrun. destruct Hrun as (feat' & st8 & Hfeat & Hrun).
  apply lift_inv_ok in Hfeat. destruct Hfeat as [Hfeat ->].
  apply ret_inv in Hrun. destruct Hrun as [Heq ->].
  injection Heq as -> -> ->.
  exists img0, fit, fit_2d, tr, rescaled, pts, scale0.
  unfold dict_get in Hlm. destruct (landmarks img' !! "fit_2d") eqn:Hl;
    [injection Hlm as ->|discriminate Hlm].
  unfold row_at in Hsc. destruct (scale tr !! 0%nat) eqn:Hs;
    [injection Hsc as ->|discriminate Hsc].
  repeat (split; [assumption || reflexivity|]). reflexivity.
Qed.

End Normalisation.

(** ** The points of the normalised mesh *)

Section NormalisedPoints.
Context `{Externals}.

Lemma point_cloud_2d_of_width_3 (rs : matrix) (pc : list (Q * Q)) :
  width_is 3 rs →
  point_cloud_2d (map (take 2) rs) = Ok pc →
  pc = map (λ r, (nth 0 r 0%Q, nth 1 r 0%Q)) rs.
Proof.
  revert pc. induction rs as [|r rs IH]; intros pc Hw Hpc.
  - injection Hpc as <-. reflexivity.
  - apply Forall_cons in Hw. destruct Hw as [Hr Hw].
    destruct r as [|y [|x [|z [|? ?]]]]; try discriminate Hr.
    cbn [map take point_cloud_2d] in Hpc.
    destruct (point_cloud_2d (map (take 2) rs)) as [pc'|e] eqn:Hrec;
      [|discriminate Hpc].
    injection Hpc as <-. cbn [map nth]. f_equal. apply IH; [exact Hw|reflexivity].
Qed.

(** The array after the two assignments of the normalisation step. *)
Lemma normalised_rows (rs : matrix) (pc : list (Q * Q)) (k : Q) :
  width_is 3 rs →
  divide_third (zip_with (λ r v, v ++ drop 2 r) rs (pc_points pc)) k
  = zip_with (λ r q, [fst q; snd q; (nth 2 r 0 / k)%Q]) rs pc.
Proof.
  revert pc. induction rs as [|r rs IH]; intros pc Hw; [reflexivity|].
  apply Forall_cons in Hw. destruct Hw as [Hr Hw].
  destruct pc as [|q pc]; [reflexivity|].
  destruct r as [|y [|x [|z [|? ?]]]]; try discriminate Hr.
  cbn [pc_points map zip_with divide_third app drop nth].
  f_equal. apply IH. exact Hw.
Qed.

Lemma column_0_normalised (rs : matrix) (pc : list (Q * Q)) (k : Q) :
  length pc = length rs →
  column 0 (zip_with (λ r q, [fst q; snd q; (nth 2 r 0 / k)%Q]) rs pc)
  = map fst pc.
Proof.
  revert pc. induction rs as [|r rs IH]; intros [|q pc] Hlen;
    try discriminate Hlen; [reflexivity|].
  cbn [zip_with column map nth]. f_equal. apply IH.
  injection Hlen as Hlen. exact Hlen.
Qed.

Lemma column_1_normalised (rs : matrix) (pc : list (Q * Q)) (k : Q) :
  length pc = length rs →
  column 1 (zip_with (λ r q, [fst q; snd q; (nth 2 r 0 / k)%Q]) rs pc)
  = map snd pc.
Proof.
  revert pc. induction rs as [|r rs IH]; intros [|q pc] Hlen;
    try discriminate Hlen; [reflexivity|].
  cbn [zip_with column map nth]. f_equal. apply IH.
  injection Hlen as Hlen. exact Hlen.
Qed.

Lemma take_2_normalised (rs : matrix) (pc : list (Q * Q)) (k : Q) :
  length pc = length rs →
  map (take 2) (zip_with (λ r q, [fst q; snd q; (nth 2 r 0 / k)%Q]) rs pc)
  = pc_points pc.
Proof.
  revert pc. induction rs as [|r rs IH]; intros [|q pc] Hlen;
    try discriminate Hlen; [reflexivity|].
  cbn [zip_with map take pc_points]. f_equal. apply IH.
  injection Hlen as Hlen. exact Hlen.
Qed.

Lemma pc_points_length (pc : list (Q * Q)) : length (pc_points pc) = length pc.
Proof. unfold pc_points. apply length_map. Qed.

End NormalisedPoints.

Section Alignment.
Context `{Externals}.

(** The landmarks handed to the rescale and those read back have the
    same number of points when the rescale warps its landmarks. *)
Lemma rescaled_landmarks_related img0 fit_2d img tr rescaled d :
  rescale_warps_landmarks →
  rescale_landmarks_to_diagonal_range (set_landmarks img0 "fit_2d" fit_2d) d
  = Ok (img, tr) →
  landmarks img !! "fit_2d" = Some rescaled →
  Forall2 (λ p q, (fst q == fst (apply_pseudoinverse tr p))%Q ∧
                  (snd q == snd (apply_pseudoinverse tr p))%Q)
          fit_2d rescaled.
Proof.
  intros Hwarp Hres Hlm. apply (Hwarp _ _ _ _ Hres "fit_2d"); [|exact Hlm].
  unfold set_landmarks. cbn [landmarks]. apply lookup_insert_eq.
Qed.

Lemma scaled_vertices (rs : matrix) (pc : list (Q * Q))
    (tr : NonUniformScale) (s : Q) :
  width_is 3 rs →
  rescale_maps_by tr s →
  Forall2 (λ p q, (fst q == fst (apply_pseudoinverse tr p))%Q ∧
                  (snd q == snd (apply_pseudoinverse tr p))%Q)
          (map (λ r, (nth 0 r 0%Q, nth 1 r 0%Q)) rs) pc →
  Forall2 (scaled_vertex s) rs
    (zip_with (λ r q, [fst q; snd q; (nth 2 r 0 / nth 0 (scale tr) 0)%Q]) rs pc).
Proof.
  intros Hw Hs. revert pc. induction rs as [|r rs IH]; intros pc Hrel.
  - constructor.
  - apply Forall_cons in Hw. destruct Hw as [Hr Hw].
    cbn [map] in Hrel. apply Forall2_cons_inv_l in Hrel.
    destruct Hrel as (q & pc' & [Hy Hx] & Hrel & ->).
    destruct r as [|y [|x [|z [|? ?]]]]; try discriminate Hr.
    cbn [zip_with nth] in *. constructor; [|apply IH; assumption].
    exists y, x, z, (fst q), (snd q), (z / nth 0 (scale tr) 0)%Q.
    destruct (Hs y x) as [Hsy Hsx]. destruct (Hs z 0%Q) as [Hsz _].
    split; [reflexivity|]. split; [reflexivity|].
    split; [rewrite Hy; exact Hsy|]. split; [rewrite Hx; exact Hsx|].
    exact Hsz.
Qed.

(** C2. The normalisation step scales the depth of the mesh by the
    factor that the rescale applies to the image plane: when the
    rescale (the pseudo-inverse of the transform [tr] that the library
    returns, which is how the library moves the landmarks) maps every
    point [p] to [s * p], every vertex [(y, x, z)] of the mesh read
    from disk becomes [(s * y, s * x, s * z)] in the sample. *)
Theorem depth_scales_with_rescale
    (p : path) (e : Q) (w : world) (st st1 st2 : pstate)
    (img0 img img' feat : Image) (fit mesh : TriMesh)
    (fit_2d : list (Q * Q)) (tr : NonUniformScale) (s : Q) :
  rescale_warps_landmarks →
  load_img_and_fit p w st = (Ok (img0, fit), st1) →
  point_cloud_2d (map (take 2) (points fit)) = Ok fit_2d →
  rescale_landmarks_to_diagonal_range
    (set_landmarks img0 "fit_2d" fit_2d) (inject_Z DIAGONAL_RANGE)
  = Ok (img, tr) →
  rescale_maps_by tr s →
  load_data_with_feature_sample p e w st = (Ok (img', feat, mesh), st2) →
  Forall2 (scaled_vertex s) (points fit) (points mesh).
Proof.
  intros Hwarp Hload0 Hpc0 Hres0 Hs Hrun. apply load_data_inv in Hrun.
  destruct Hrun as (img0' & fit' & fit_2d' & tr' & rescaled & pts & scale0 &
                    Hload & Hpc & Hres & Hlm & Hpts & Hsc & Hfeat & ->).
  rewrite Hload0 in Hload. injection Hload as <- <- <-.
  rewrite Hpc0 in Hpc. injection Hpc as <-.
  rewrite Hres0 in Hres. injection Hres as <- <-.
  pose proof (load_img_and_fit_width _ _ _ _ _ _ Hload0) as Hw.
  pose proof (rescaled_landmarks_related _ _ _ _ _ _ Hwarp Hres0 Hlm) as Hrel.
  pose proof (point_cloud_2d_of_width_3 _ _ Hw Hpc0) as ->.
  pose proof (Forall2_length _ _ _ Hrel) as Hlen. rewrite length_map in Hlen.
  unfold assign_first_two in Hpts. rewrite pc_points_length in Hpts.
  destruct (decide (length rescaled = length (points fit))) as [_|Hne];
    [|congruence].
  injection Hpts as <-. cbn [points].
  rewrite normalised_rows by exact Hw.
  assert (Hk : scale0 = nth 0 (scale tr) 0%Q).
  { destruct (scale tr) as [|k ks]; [discriminate Hsc|].
    injection Hsc as ->. reflexivity. }
  rewrite Hk. apply scaled_vertices; assumption.
Qed.

(** C3, as amended.  The mesh and the image that the normalisation
    step returns are rescaled together: the first two coordinates of
    every vertex are the corresponding [fit_2d] landmark of the
    rescaled image, the image from which the feature image is
    computed.  Hence the vertices are valid indices of the pixel grid
    of the feature image exactly when those landmarks are; nothing
    keeps them inside the grid. *)
Theorem mesh_lies_on_rescaled_landmarks
    (p : path) (e : Q) (w : world) (st st1 : pstate)
    (img feat : Image) (mesh : TriMesh) :
  rescale_warps_landmarks →
  load_data_with_feature_sample p e w st = (Ok (img, feat, mesh), st1) →
  ∃ rescaled,
    landmarks img !! "fit_2d" = Some rescaled ∧
    feature FEATURE_F img = Ok feat ∧
    map (take 2) (points mesh) = pc_points rescaled ∧
    (vertices_index_validly feat (points mesh) ↔
     Forall (λ q, valid_index feat (fst q) (snd q)) rescaled).
Proof.
  intros Hwarp Hrun. apply load_data_inv in Hrun.
  destruct Hrun as (img0 & fit & fit_2d & tr & rescaled & pts & scale0 &
                    Hload & Hpc & Hres & Hlm & Hpts & Hsc & Hfeat & ->).
  exists rescaled. split; [exact Hlm|]. split; [exact Hfeat|].
  pose proof (load_img_and_fit_width _ _ _ _ _ _ Hload) as Hw.
  pose proof (rescaled_landmarks_related _ _ _ _ _ _ Hwarp Hres Hlm) as Hrel.
  pose proof (point_cloud_2d_of_width_3 _ _ Hw Hpc) as ->.
  pose proof (Forall2_length _ _ _ Hrel) as Hlen. rewrite length_map in Hlen.
  unfold assign_first_two in Hpts. rewrite pc_points_length in Hpts.
  destruct (decide (length rescaled = length (points fit))) as [_|Hne];
    [|congruence].
  injection Hpts as <-. cbn [points].
  rewrite normalised_rows by exact Hw.
  split; [apply take_2_normalised; congruence|].
  unfold vertices_index_validly. clear -Hlen.
  revert rescaled Hlen. induction (points fit) as [|r rs IH];
    intros [|q pc] Hlen; try discriminate Hlen.
  - split; constructor.
  - cbn [zip_with]. rewrite !Forall_cons. cbn [nth].
    rewrite (IH pc) by (injection Hlen as Hlen; exact Hlen). reflexivity.
Qed.

End Alignment.

(** ** Bounding boxes under scaling *)

Section Bounds.

(** Scaling by [s >= 0] commutes with the bounds of a list. *)
Lemma foldr_max_scaled (s init : Q) (l : list Q) :
  (0 <= s)%Q →
  (foldr Qmax (init * s) (map (λ y, y * s) l) == foldr Qmax init l * s)%Q.
Proof.
  intros Hs. induction l as [|y l IH]; [reflexivity|].
  cbn [map foldr]. rewrite IH.
  apply (Q.max_mono (λ y, y * s)%Q).
  - intros a b Hab. rewrite Hab. reflexivity.
  - intros a b Hab. apply Qmult_le_compat_r; assumption.
Qed.

Lemma foldr_min_scaled (s init : Q) (l : list Q) :
  (0 <= s)%Q →
  (foldr Qmin (init * s) (map (λ y, y * s) l) == foldr Qmin init l * s)%Q.
Proof.
  intros Hs. induction l as [|y l IH]; [reflexivity|].
  cbn [map foldr]. rewrite IH.
  apply (Q.min_mono (λ y, y * s)%Q).
  - intros a b Hab. rewrite Hab. reflexivity.
  - intros a b Hab. apply Qmult_le_compat_r; assumption.
Qed.

Lemma upper_scaled (s : Q) (l : list Q) :
  (0 <= s)%Q → (upper (map (λ y, y * s) l) == upper l * s)%Q.
Proof.
  intros Hs. unfold upper. destruct l as [|y0 l]; [cbn; ring|].
  apply (foldr_max_scaled s y0 (y0 :: l) Hs).
Qed.

Lemma lower_scaled (s : Q) (l : list Q) :
  (0 <= s)%Q → (lower (map (λ y, y * s) l) == lower l * s)%Q.
Proof.
  intros Hs. unfold lower. destruct l as [|y0 l]; [cbn; ring|].
  apply (foldr_min_scaled s y0 (y0 :: l) Hs).
Qed.

Lemma extent_scaled (s : Q) (l : list Q) :
  (0 <= s)%Q → (extent (map (λ y, y * s) l) == extent l * s)%Q.
Proof.
  intros Hs. unfold extent. rewrite upper_scaled, lower_scaled by exact Hs.
  ring.
Qed.

(** The bounds depend on the values of a list only up to [Qeq]. *)
Lemma foldr_max_proper (init init' : Q) (l l' : list Q) :
  (init == init')%Q → Forall2 Qeq l l' →
  (foldr Qmax init l == foldr Qmax init' l')%Q.
Proof.
  intros Hi Hl. induction Hl as [|a a' l l' Ha Hl IH]; [exact Hi|].
  cbn [foldr]. rewrite IH, Ha. reflexivity.
Qed.

Lemma foldr_min_proper (init init' : Q) (l l' : list Q) :
  (init == init')%Q → Forall2 Qeq l l' →
  (foldr Qmin init l == foldr Qmin init' l')%Q.
Proof.
  intros Hi Hl. induction Hl as [|a a' l l' Ha Hl IH]; [exact Hi|].
  cbn [foldr]. rewrite IH, Ha. reflexivity.
Qed.

Lemma upper_proper (l l' : list Q) :
  Forall2 Qeq l l' → (upper l == upper l')%Q.
Proof.
  intros Hl. unfold upper. destruct Hl as [|y y' l l' Hy Hl]; [reflexivity|].
  apply foldr_max_proper; [exact Hy|constructor; assumption].
Qed.

Lemma lower_proper (l l' : list Q) :
  Forall2 Qeq l l' → (lower l == lower l')%Q.
Proof.
  intros Hl. unfold lower. destruct Hl as [|y y' l l' Hy Hl]; [reflexivity|].
  apply foldr_min_proper; [exact Hy|constructor; assumption].
Qed.

Lemma extent_proper (l l' : list Q) :
  Forall2 Qeq l l' → (extent l == extent l')%Q.
Proof.
  intros Hl. unfold extent.
  rewrite (upper_proper _ _ Hl), (lower_proper _ _ Hl). reflexivity.
Qed.

Lemma extent_over (t : Q) (l : list Q) :
  (0 < t)%Q → (extent (map (λ y, y / t) l) == extent l / t)%Q.
Proof.
  intros Ht. unfold Qdiv. apply extent_scaled.
  apply Qlt_le_weak, Qinv_lt_0_compat. exact Ht.
Qed.

(** The coordinates of points moved by the pseudo-inverse of a transform
    with the scales [t0] and [t1]. *)
Lemma moved_coordinates (tr : NonUniformScale) (t0 t1 : Q)
    (rs : matrix) (pc : list (Q * Q)) :
  scale tr = [t0; t1] →
  Forall2 (λ p q, (fst q == fst (apply_pseudoinverse tr p))%Q ∧
                  (snd q == snd (apply_pseudoinverse tr p))%Q)
          (map (λ r, (nth 0 r 0%Q, nth 1 r 0%Q)) rs) pc →
  Forall2 Qeq (map fst pc) (map (λ y, y / t0)%Q (column 0 rs)) ∧
  Forall2 Qeq (map snd pc) (map (λ x, x / t1)%Q (column 1 rs)).
Proof.
  intros Hsc. unfold apply_pseudoinverse. rewrite Hsc. cbn [nth fst snd].
  revert pc. induction rs as [|r rs IH]; intros pc Hrel.
  - apply Forall2_nil_inv_l in Hrel. subst pc. split; constructor.
  - cbn [map] in Hrel. apply Forall2_cons_inv_l in Hrel.
    destruct Hrel as (q & pc' & [Hy Hx] & Hrel & ->).
    destruct (IH pc' Hrel) as [IHy IHx]. cbn [fst snd] in Hy, Hx.
    split; cbn [map column]; constructor; assumption.
Qed.

End Bounds.

(** ** The diagonal of the normalised mesh *)

Section Diagonal.
Context `{Externals}.

(** The sides of the bounding box of a sample, from those of the mesh
    read from disk and the scales of the returned transform. *)
Lemma sample_extents
    (p : path) (e : Q) (w : world) (st st1 st2 : pstate)
    (img0 img img' feat : Image) (fit mesh : TriMesh)
    (fit_2d : list (Q * Q)) (tr : NonUniformScale) (t0 t1 : Q) :
  rescale_warps_landmarks →
  load_img_and_fit p w st = (Ok (img0, fit), st1) →
  point_cloud_2d (map (take 2) (points fit)) = Ok fit_2d →
  rescale_landmarks_to_diagonal_range
    (set_landmarks img0 "fit_2d" fit_2d) (inject_Z DIAGONAL_RANGE)
  = Ok (img, tr) →
  scale tr = [t0; t1] → (0 < t0)%Q → (0 < t1)%Q →
  load_data_with_feature_sample p e w st = (Ok (img', feat, mesh), st2) →
  (∃ rescaled, landmarks img !! "fit_2d" = Some rescaled ∧
               mesh_diag_sq mesh = landmarks_diag_sq rescaled) ∧
  (extent (column 0 (points mesh))
   == extent (column 0 (points fit)) / t0)%Q ∧
  (extent (column 1 (points mesh))
   == extent (column 1 (points fit)) / t1)%Q.
Proof.
  intros Hwarp Hload0 Hpc0 Hres0 Hsc0 Ht0 Ht1 Hrun.
  apply load_data_inv in Hrun.
  destruct Hrun as (img0' & fit' & fit_2d' & tr' & rescaled & pts & scale0 &
                    Hload & Hpc & Hres & Hlm & Hpts & Hsc & Hfeat & ->).
  rewrite Hload0 in Hload. injection Hload as <- <- <-.
  rewrite Hpc0 in Hpc. injection Hpc as <-.
  rewrite Hres0 in Hres. injection Hres as <- <-.
  pose proof (load_img_and_fit_width _ _ _ _ _ _ Hload0) as Hw.
  pose proof (rescaled_landmarks_related _ _ _ _ _ _ Hwarp Hres0 Hlm) as Hrel.
  pose proof (point_cloud_2d_of_width_3 _ _ Hw Hpc0) as ->.
  pose proof (Forall2_length _ _ _ Hrel) as Hlen. rewrite length_map in Hlen.
  unfold assign_first_two in Hpts. rewrite pc_points_length in Hpts.
  destruct (decide (length rescaled = length (points fit))) as [Heq|Hne];
    [|congruence].
  injection Hpts as <-.
  destruct (moved_coordinates _ _ _ _ _ Hsc0 Hrel) as [Hy Hx].
  unfold mesh_diag_sq, landmarks_diag_sq. cbn [points].
  rewrite normalised_rows by exact Hw.
  rewrite column_0_normalised, column_1_normalised by exact Heq.
  split; [exists rescaled; split; [exact Hlm|reflexivity]|]. split.
  - rewrite (extent_proper _ _ Hy). apply extent_over. exact Ht0.
  - rewrite (extent_proper _ _ Hx). apply extent_over. exact Ht1.
Qed.


End Diagonal.

(** ** The exact instance meets what is assumed of the library *)

Section ExactFacts.

Lemma exact_sqrt_spec (q r : Q) :
  Exact.exact_sqrt q = Some r → (r * r == q)%Q ∧ (0 <= r)%Q.
Proof.
  unfold Exact.exact_sqrt.
  destruct (Qeq_bool _ q) eqn:Hsq; [|discriminate].
  intros [= <-]. split; [apply Qeq_bool_iff; exact Hsq|].
  unfold Qle. cbn [Qnum Qden]. rewrite Z.mul_1_r, Z.mul_0_l.
  apply Z.sqrt_nonneg.
Qed.

(** What a successful exact rescale returns. *)
Lemma exact_rescale_inv img d img' tr :
  Exact.rescale img d = Ok (img', tr) →
  ∃ group pts r,
    landmarks img = {[ group := pts ]} ∧
    (r * r == landmarks_diag_sq pts)%Q ∧ (0 <= r)%Q ∧ (0 < d / r)%Q ∧
    tr = {| scale := [(/ Exact.axis_factor (d / r) (fst (shape img)))%Q;
                      (/ Exact.axis_factor (d / r) (snd (shape img)))%Q] |} ∧
    landmarks img' = {[ group := map (apply_pseudoinverse tr) pts ]}.
Proof.
  unfold Exact.rescale.
  destruct (map_to_list (landmarks img)) as [|[group pts] [|? ?]] eqn:Hl;
    try discriminate.
  destruct (Exact.exact_sqrt (landmarks_diag_sq pts)) as [r|] eqn:Hr;
    [|discriminate].
  destruct (Qlt_le_dec 0 (d / r)) as [Hs|Hs]; [|discriminate].
  intros [= <- <-]. exists group, pts, r.
  destruct (exact_sqrt_spec _ _ Hr) as [Hsq Hpos].
  split; [|repeat (split; [assumption || reflexivity|]); reflexivity].
  apply map_eq. intros g.
  destruct (landmarks img !! g) as [pc|] eqn:Hg.
  - apply elem_of_map_to_list in Hg. rewrite Hl in Hg.
    apply list_elem_of_singleton in Hg. injection Hg as -> ->.
    symmetry. apply lookup_singleton_eq.
  - symmetry. apply lookup_singleton_None. intros <-.
    assert (Hin : (group, pts) ∈ map_to_list (landmarks img))
      by (rewrite Hl; apply list_elem_of_singleton; reflexivity).
    apply elem_of_map_to_list in Hin. congruence.
Qed.

Lemma exact_rescale_warps f :
  @rescale_warps_landmarks (Exact.externals_with f).
Proof.
  intros img d img' tr Hres g pc pc' Hin Hout.
  apply exact_rescale_inv in Hres.
  destruct Hres as (group & pts & r & Hlm & _ & _ & _ & _ & Hlm').
  rewrite Hlm in Hin. rewrite Hlm' in Hout.
  apply lookup_singleton_Some in Hin. destruct Hin as [-> ->].
  apply lookup_singleton_Some in Hout. destruct Hout as [_ <-].
  clear. induction pc as [|q pc IH]; constructor; [|exact IH].
  split; reflexivity.
Qed.

(** The landmarks handed to the rescale have the bounding box of the
    projected mesh. *)
Lemma fit_2d_diag (rs : matrix) :
  landmarks_diag_sq (map (λ r, (nth 0 r 0%Q, nth 1 r 0%Q)) rs)
  = diag_sq (column 0 rs) (column 1 rs).
Proof.
  unfold landmarks_diag_sq, column. rewrite !map_map. reflexivity.
Qed.

End ExactFacts.

(** ** The properties on concrete files *)

Lemma convert_raw_fit_coordinates_witness :
  length [1; 1; 73; 73]%Q = length [1; 55; 1; 55]%Q ∧
  length [5; 7; 9; 11]%Q = length [1; 55; 1; 55]%Q ∧
  @load_trilist Exact.externals Exact.disk fresh_process
  = (Ok Exact.tri_0, @stored Exact.tri_0 fresh_process) ∧
  ∃ pts,
    @convert_raw_3d_fit_to_img_trimesh_fit Exact.externals
      Exact.raw_a Exact.grey_4 Exact.disk fresh_process
    = (Ok {| points := pts; trilist := Exact.tri_0 |},
       @stored Exact.tri_0 fresh_process) ∧
    length pts = 4%nat ∧
    ∃ z, pts !! 3%nat = Some [(4 - (73 - 1))%Q; (55 - 1)%Q; z] ∧ (z == - 11)%Q.
Proof.
  assert (Htri : @load_trilist Exact.externals Exact.disk fresh_process
                 = (Ok Exact.tri_0, @stored Exact.tri_0 fresh_process))
    by (vm_compute; reflexivity).
  split; [reflexivity|]. split; [reflexivity|]. split; [exact Htri|].
  destruct (@convert_raw_fit_coordinates Exact.externals
              [1; 55; 1; 55]%Q [1; 1; 73; 73]%Q [5; 7; 9; 11]%Q [] Exact.grey_4
              Exact.disk fresh_process _ _ eq_refl eq_refl Htri)
    as (pts & Hrun & Hlen & Hpts).
  exists pts. split; [exact Hrun|]. split; [exact Hlen|].
  exact (Hpts 3%nat 55%Q 73%Q 11%Q eq_refl eq_refl eq_refl).
Defined.

Lemma missing_fit_raises_at_access_witness :
  Exact.img_paths !! 2%nat = Some Exact.img_c ∧
  @fit_path_of Exact.externals Exact.img_c = Ok Exact.fit_c ∧
  Exact.disk !! Exact.fit_c = None ∧
  length (@imgs_features_and_fits Exact.externals Exact.img_paths) = 4%nat ∧
  getitem (@imgs_features_and_fits Exact.externals Exact.img_paths) 2
    Exact.disk fresh_process
  = (Raise (FileNotFoundError Exact.fit_c), fresh_process).
Proof.
  assert (Hp : Exact.img_paths !! 2%nat = Some Exact.img_c) by reflexivity.
  assert (Hfp : @fit_path_of Exact.externals Exact.img_c = Ok Exact.fit_c)
    by (vm_compute; reflexivity).
  assert (Hnone : Exact.disk !! Exact.fit_c = None) by (vm_compute; reflexivity).
  split; [exact Hp|]. split; [exact Hfp|]. split; [exact Hnone|].
  destruct (@missing_fit_raises_at_access Exact.externals Exact.img_paths 2
              Exact.img_c Exact.fit_c Exact.disk fresh_process Hp Hfp Hnone)
    as (Hlen & e & Hrun & Herr & _).
  split; [exact Hlen|].
  assert (He : e = FileNotFoundError Exact.fit_c)
    by (eapply (Herr (Exact.rgb 4 4));
        [vm_compute; reflexivity|vm_compute; reflexivity]).
  subst e. exact Hrun.
Defined.

Lemma trilist_loaded_once_from_the_file_witness :
  let run :=
    run_accesses (@imgs_features_and_fits Exact.externals Exact.img_paths)
                 Exact.trace_1 fresh_process in
  ∃ x y,
    fst run !! 0%nat = Some (Ok x) ∧ fst run !! 1%nat = Some (Ok y) ∧
    trilist (snd x) = trilist (snd y) ∧
    trilist_loads (snd run) = 1%nat ∧
    ∃ k w j vars t0 t1 t2 rest,
      Exact.trace_1 !! k = Some (w, j) ∧ (k ≤ 0)%nat ∧
      w !! Exact.tri_path = Some (MatFile vars) ∧
      vars !! "tri" = Some (t0 :: t1 :: t2 :: rest) ∧
      trilist (snd y) = sub_scalar (transpose [t1; t0; t2]) 1.
Proof.
  intros run.
  destruct (@trilist_loaded_once_from_the_file Exact.externals Exact.img_paths
              Exact.trace_1) as (_ & Hone & Hshare).
  fold run in Hone, Hshare.
  do 2 eexists.
  split; [vm_compute; reflexivity|]. split; [vm_compute; reflexivity|].
  split; [eapply (Hshare 0%nat 1%nat); vm_compute; reflexivity|].
  edestruct (Hone 0%nat) as
    (Hn & k & w & j & vars & t0 & t1 & t2 & rest & Hk & Hw & Hv & Hall);
    [vm_compute; reflexivity|].
  split; [exact Hn|].
  exists k, w, j, vars, t0, t1, t2, rest.
  split; [exact Hk|].
  split; [eapply (Hall 0%nat); vm_compute; reflexivity|].
  split; [exact Hw|]. split; [exact Hv|].
  eapply (Hall 1%nat); vm_compute; reflexivity.
Defined.

(** C6, as stated, fails where it says "by reference".  The constructor
    of a mesh copies the triangle list it is given: two meshes built
    one after the other from the files of the examples hold two arrays,
    neither of which is the array kept by the cache, all three with the
    same content. *)
Lemma meshes_do_not_share_one_array :
  ∃ a1 h1 a2 h2 c,
    @mesh_trilist_object Exact.externals Exact.disk empty_tri_heap = (Ok a1, h1) ∧
    @mesh_trilist_object Exact.externals Exact.disk h1 = (Ok a2, h2) ∧
    tri_slot h2 = Some c ∧
    a1 ≠ a2 ∧ a1 ≠ c ∧ a2 ≠ c ∧
    tri_arrays h2 !! a1 = Some Exact.tri_0 ∧
    tri_arrays h2 !! a2 = Some Exact.tri_0 ∧
    tri_arrays h2 !! c = Some Exact.tri_0.
Proof.
  do 5 eexists.
  split; [vm_compute; reflexivity|]. split; [vm_compute; reflexivity|].
  split; [reflexivity|].
  split; [discriminate|]. split; [discriminate|]. split; [discriminate|].
  split; [reflexivity|]. split; reflexivity.
Qed.

Lemma as_float32_leaves_input_unchanged_witness :
  images Exact.heap_1 !! 0%nat
  = Some {| obj_pixels := 0; obj_landmarks := ∅; obj_path := Some Exact.img_a |} ∧
  arrays Exact.heap_1 !! 0%nat
  = Some {| arr_dtype := float64; arr_data := [[[(1 # 3)%Q; 2%Q]]] |} ∧
  ∃ img' h',
    @as_float32 Exact.externals 0 Exact.heap_1 = (Ok img', h') ∧
    img' ≠ 0%nat ∧
    images h' !! 0%nat = images Exact.heap_1 !! 0%nat ∧
    arrays h' !! 0%nat = arrays Exact.heap_1 !! 0%nat.
Proof.
  split; [reflexivity|]. split; [reflexivity|].
  destruct (@as_float32_leaves_input_unchanged Exact.externals Exact.heap_1 0
              _ _ eq_refl eq_refl)
    as (img' & h' & o' & Hrun & Himg & Harr & _ & _ & Hne & _).
  exists img', h'. split; [exact Hrun|]. split; [exact Hne|].
  split; [exact Himg|exact Harr].
Defined.



Lemma depth_scales_with_rescale_witness :
  @rescale_warps_landmarks Exact.externals ∧
  ∃ img0 fit st1 fit_2d img tr feat mesh st2,
    @load_img_and_fit Exact.externals Exact.img_a Exact.disk fresh_process
    = (Ok (img0, fit), st1) ∧
    point_cloud_2d (map (take 2) (points fit)) = Ok fit_2d ∧
    @rescale_landmarks_to_diagonal_range Exact.externals
      (set_landmarks img0 "fit_2d" fit_2d) (inject_Z DIAGONAL_RANGE)
    = Ok (img, tr) ∧
    rescale_maps_by tr (7 # 3) ∧
    @load_data_with_feature_sample Exact.externals Exact.img_a
      err_proportion_default Exact.disk fresh_process
    = (Ok (img, feat, mesh), st2) ∧
    Forall2 (scaled_vertex (7 # 3)) (points fit) (points mesh).
Proof.
  split; [exact (exact_rescale_warps _)|].
  assert (Hmaps : ∀ k : Q, (k == 3 # 7)%Q →
            rescale_maps_by {| scale := [k; k] |} (7 # 3)).
  { intros k Hk y x. unfold apply_pseudoinverse. cbn [scale nth fst snd].
    rewrite Hk. split; field. }
  do 9 eexists.
  split; [vm_compute; reflexivity|].
  split; [vm_compute; reflexivity|].
  split; [vm_compute; reflexivity|].
  split; [apply Hmaps; reflexivity|].
  split; [vm_compute; reflexivity|].
  eapply (@depth_scales_with_rescale Exact.externals Exact.img_a
            err_proportion_default Exact.disk fresh_process);
    [exact (exact_rescale_warps _)
    |vm_compute; reflexivity
    |vm_compute; reflexivity
    |vm_compute; reflexivity
    |apply Hmaps; reflexivity
    |vm_compute; reflexivity].
Defined.

Lemma mesh_lies_on_rescaled_landmarks_witness :
  @rescale_warps_landmarks Exact.externals ∧
  ∃ img feat mesh st1 rescaled,
    @load_data_with_feature_sample Exact.externals Exact.img_a
      err_proportion_default Exact.disk fresh_process
    = (Ok (img, feat, mesh), st1) ∧
    landmarks img !! "fit_2d" = Some rescaled ∧
    map (take 2) (points mesh) = pc_points rescaled.
Proof.
  split; [exact (exact_rescale_warps _)|].
  do 4 eexists.
  match goal with
  | |- ∃ rescaled, ?run = ?res ∧ _ =>
      assert (Hrun : run = res) by (vm_compute; reflexivity)
  end.
  destruct (@mesh_lies_on_rescaled_landmarks Exact.externals _ _ _ _ _ _ _ _
              (exact_rescale_warps _) Hrun) as (rescaled & Hlm & _ & Hxy & _).
  exists rescaled. split; [exact Hrun|]. split; [exact Hlm|exact Hxy].
Defined.

(** C3, as stated, fails.  The fit of [d.jpg], on a colour image of 5
    by 5 pixels, has a vertex with the raw coordinates [(a, b)] =
    (-2, 2): a face that extends beyond the left border of the image.
    The loader puts it at the row [5 - (2 - 1) = 4] and the column
    [-2 - 1 = -3]; the rescale, of scale 36, moves the points of either
    axis by [(36 * 5 - 1) / (5 - 1) = 179 / 4], hence the vertex to the
    row 179 and the column -134.25.  No pixel grid has a negative
    column, whatever the feature function computes. *)
Lemma vertices_can_leave_the_pixel_grid :
  (∃ img feat mesh st1 y x z,
     @load_data_with_feature_sample Exact.externals Exact.img_d
       err_proportion_default Exact.disk fresh_process
     = (Ok (img, feat, mesh), st1) ∧
     points mesh !! 0%nat = Some [y; x; z] ∧
     (y == 179)%Q ∧ (x == - (537 # 4))%Q ∧
     ¬ vertices_index_validly feat (points mesh)) ∧
  (∀ f img feat mesh st1,
     @load_data_with_feature_sample (Exact.externals_with f) Exact.img_d
       err_proportion_default Exact.disk fresh_process
     = (Ok (img, feat, mesh), st1) →
     ¬ vertices_index_validly feat (points mesh)).
Proof.
  assert (Hall : ∀ f img feat mesh st1,
     @load_data_with_feature_sample (Exact.externals_with f) Exact.img_d
       err_proportion_default Exact.disk fresh_process
     = (Ok (img, feat, mesh), st1) →
     ¬ vertices_index_validly feat (points mesh)).
  { intros f img feat mesh st1 Hrun. apply load_data_inv in Hrun.
    destruct Hrun as (img0 & fit & fit_2d & tr & rescaled & pts & scale0 &
                      Hload & Hpc & Hres & Hlm & Hpts & Hsc & Hfeat & ->).
    vm_compute in Hload. injection Hload as <- <- <-.
    vm_compute in Hpc. injection Hpc as <-.
    vm_compute in Hres. injection Hres as <- <-.
    vm_compute in Hlm. injection Hlm as <-.
    vm_compute in Hpts. injection Hpts as <-.
    vm_compute in Hsc. injection Hsc as <-.
    cbn [points divide_third map alter list_alter]. intros Hvalid.
    apply Forall_cons in Hvalid. destruct Hvalid as [(_ & _ & Hx & _) _].
    cbn [nth] in Hx. apply Hx. reflexivity. }
  split; [|exact Hall].
  do 7 eexists. split; [vm_compute; reflexivity|].
  split; [reflexivity|]. split; [reflexivity|]. split; [reflexivity|].
  eapply (Hall Exact.keep_grid). vm_compute. reflexivity.
Qed.


(** * Further properties of the notebook *)

(** ** The triangle list *)

Section TrilistFacts.
Context `{Externals}.

(** The body of [load_trilist] on files that hold the array [tri]. *)
Lemma load_trilist_body_run w st vars tri :
  w !! (DATA_PATH ++ ["300W-3D"; "Code"; "ModelGeneration"; "model_info.mat"])
  = Some (MatFile vars) →
  vars !! "tri" = Some tri →
  load_trilist_body w st
  = (rbind (take_rows [1; 0; 2]%nat tri)
       (λ flipped, Ok (sub_scalar (transpose flipped) 1)), st).
Proof.
  intros Hw Hv. unfold load_trilist_body.
  unfold bind at 1. unfold loadmat. rewrite Hw.
  unfold bind at 1. unfold dict_get. rewrite Hv. cbn [lift].
  unfold bind, lift, ret. destruct (take_rows _ tri); reflexivity.
Qed.

(** X1. With an empty cache, [load_trilist] turns the array [tri] of the
    connectivity file, whose first three rows are [t0], [t1] and [t2],
    into one triangle per column: the [k]-th is
    [(t1_k - 1, t0_k - 1, t2_k - 1)], the first two corners exchanged and
    the indices moved to base 0.  Every triangle has three corners, rows
    after the third are ignored, and the list is stored in the cache. *)
Theorem load_trilist_triangles
    (w : world) (st : pstate) (vars : gmap string matrix)
    (t0 t1 t2 : list Q) (rest : matrix) :
  trilist_cache st = None →
  w !! (DATA_PATH ++ ["300W-3D"; "Code"; "ModelGeneration"; "model_info.mat"])
  = Some (MatFile vars) →
  vars !! "tri" = Some (t0 :: t1 :: t2 :: rest) →
  ∃ tris,
    load_trilist w st = (Ok tris, stored tris st) ∧
    length tris = length t1 ∧
    width_is 3 tris ∧
    ∀ k x0 x1 x2,
      t0 !! k = Some x0 → t1 !! k = Some x1 → t2 !! k = Some x2 →
      tris !! k = Some [(x1 - 1)%Q; (x0 - 1)%Q; (x2 - 1)%Q].
Proof.
  intros Hc Hw Hv.
  exists (sub_scalar (transpose [t1; t0; t2]) 1). split; [|split; [|split]].
  - unfold load_trilist, lru_cache. rewrite Hc.
    rewrite (load_trilist_body_run w st vars _ Hw Hv). reflexivity.
  - unfold sub_scalar. rewrite length_map, transpose_length. reflexivity.
  - unfold width_is, sub_scalar, transpose. apply Forall_forall. intros r Hr.
    apply list_elem_of_In, in_map_iff in Hr. destruct Hr as (r' & <- & Hr').
    apply in_map_iff in Hr'. destruct Hr' as (j & <- & _).
    unfold column. rewrite !length_map. reflexivity.
  - intros k x0 x1 x2 H0' H1' H2'. unfold sub_scalar.
    rewrite list_lookup_fmap, transpose_lookup
      by (cbn [ncols]; apply lookup_lt_Some in H1'; exact H1').
    unfold column. cbn [map fmap option_fmap option_map].
    rewrite (nth_lookup_Q _ _ _ H0'), (nth_lookup_Q _ _ _ H1'),
            (nth_lookup_Q _ _ _ H2'). reflexivity.
Qed.

(** X2. An exception of [load_trilist] is not cached.  The call raises
    only with an empty cache and leaves the state as it was.  The error
    is [FileNotFoundError] when the connectivity file is missing; when
    it is a MATLAB file, the error is [KeyError] for a missing variable
    [tri] and [IndexError] for an array [tri] of fewer than three rows.
    A later call reads the files again and, when the connectivity file
    then holds an array [tri] of three rows or more, returns the list
    made of it and stores it. *)
Theorem load_trilist_failure_is_not_cached
    (w : world) (st st' : pstate) (e : exn) :
  load_trilist w st = (Raise e, st') →
  let file :=
    DATA_PATH ++ ["300W-3D"; "Code"; "ModelGeneration"; "model_info.mat"] in
  st' = st ∧
  trilist_cache st = None ∧
  (w !! file = None → e = FileNotFoundError file) ∧
  (∀ vars,
     w !! file = Some (MatFile vars) →
     (vars !! "tri" = None ∧ e = KeyError "tri") ∨
     (∃ tri, vars !! "tri" = Some tri ∧ (length tri < 3)%nat ∧
             e = IndexError)) ∧
  ∀ w' vars t0 t1 t2 rest,
    w' !! file = Some (MatFile vars) →
    vars !! "tri" = Some (t0 :: t1 :: t2 :: rest) →
    load_trilist w' st'
    = (Ok (sub_scalar (transpose [t1; t0; t2]) 1),
       stored (sub_scalar (transpose [t1; t0; t2]) 1) st).
Proof.
  intros Hrun file. subst file.
  pose proof (load_trilist_cases w st) as Hcase.
  destruct (trilist_cache st) as [t|] eqn:Hc; [congruence|].
  destruct (fst (load_trilist_body w fresh_process)) as [t|e'] eqn:Hb;
    [congruence|].
  rewrite Hcase in Hrun. injection Hrun as <- <-.
  split; [reflexivity|]. split; [reflexivity|]. split; [|split].
  - intros Hw. revert Hb. unfold load_trilist_body, bind, loadmat.
    rewrite Hw. cbn [fst]. intros [= <-]. reflexivity.
  - intros vars Hw. destruct (vars !! "tri") as [tri|] eqn:Hv.
    + right. exists tri. split; [reflexivity|].
      rewrite (load_trilist_body_run w _ vars tri Hw Hv) in Hb. cbn [fst] in Hb.
      destruct tri as [|t0 [|t1 [|t2 rest]]]; cbn in Hb;
        try (injection Hb as <-; split; [cbn [length]; lia|reflexivity]).
      discriminate Hb.
    + left. split; [reflexivity|]. revert Hb.
      unfold load_trilist_body, bind, loadmat, lift, dict_get.
      rewrite Hw, Hv. cbn [fst]. intros [= <-]. reflexivity.
  - intros w' vars t0 t1 t2 rest Hw Hv.
    pose proof (load_trilist_cases w' st) as Hagain. rewrite Hc in Hagain.
    rewrite (load_trilist_body_run w' _ vars _ Hw Hv) in Hagain.
    exact Hagain.
Qed.

(** X3. The number of rows of the raw fit.  With fewer than three rows
    [convert_raw_3d_fit_to_img_trimesh_fit] raises [IndexError] before
    it asks for the triangle list: the state stays as it was, whatever
    the files hold.  Rows after the third are ignored. *)
Theorem convert_row_count
    (raw : matrix) (img : Image) (w : world) (st : pstate) :
  ((length raw < 3)%nat →
   convert_raw_3d_fit_to_img_trimesh_fit raw img w st = (Raise IndexError, st)) ∧
  (∀ a b c rest,
     raw = a :: b :: c :: rest →
     convert_raw_3d_fit_to_img_trimesh_fit raw img w st
     = convert_raw_3d_fit_to_img_trimesh_fit [a; b; c] img w st).
Proof.
  split.
  - intros Hlen. destruct raw as [|a [|b [|c rest]]];
      [reflexivity|reflexivity|reflexivity|cbn [length] in Hlen; lia].
  - intros a b c rest ->. reflexivity.
Qed.

End TrilistFacts.

(** ** Paths *)

Lemma relative_to_cases (p base : path) :
  (∃ rest, p = base ++ rest ∧ relative_to p base = Ok rest) ∨
  ((∀ rest, p ≠ base ++ rest) ∧ relative_to p base = Raise ValueError).
Proof.
  revert p. induction base as [|o base IH]; intros p.
  - left. exists p. split; [reflexivity|destruct p; reflexivity].
  - destruct p as [|x p]; [right; split; [discriminate|reflexivity]|].
    cbn [relative_to]. destruct (decide (x = o)) as [->|Hne].
    + destruct (IH p) as [(rest & -> & Hrel)|[Hno Hrel]].
      * left. exists rest. split; [reflexivity|exact Hrel].
      * right. split; [|exact Hrel]. intros rest [= ->].
        apply (Hno rest). reflexivity.
    + right. split; [|reflexivity]. intros rest [= -> _]. congruence.
Qed.

Lemma with_suffix_cases (rel : path) (suffix : string) :
  (∃ dirs name, rel = dirs ++ [name] ∧ name ≠ EmptyString ∧
                with_suffix rel suffix
                = Ok (dirs ++ [with_suffix_name name suffix])) ∨
  ((∀ dirs name, name ≠ EmptyString → rel ≠ dirs ++ [name]) ∧
   with_suffix rel suffix = Raise ValueError).
Proof.
  unfold with_suffix. destruct (last rel) as [name|] eqn:Hlast.
  - apply last_Some in Hlast. destruct Hlast as [dirs ->].
    rewrite removelast_last.
    destruct (decide (name = EmptyString)) as [->|Hne].
    + right. split; [|reflexivity]. intros dirs' name' Hne' Heq.
      apply app_inj_tail in Heq. destruct Heq as [_ <-]. congruence.
    + left. exists dirs, name. auto.
  - apply last_None in Hlast. subst rel. right. split; [|reflexivity].
    intros dirs name _ Heq. destruct dirs; discriminate Heq.
Qed.

Section PathFacts.
Context `{Externals}.

(** X4. [load_img_and_fit] finds a fit path exactly for the paths
    [DATA_PATH/300W-3D/dirs/name] with a non-empty [name]; the fit path
    is then [DATA_PATH/300W-3D-Face/dirs/name'], where [name'] is [name]
    with the suffix [.mat]: the same directories in the parallel tree.
    For every other path the computation raises [ValueError]. *)
Theorem fit_path_characterised (p : path) :
  (∀ fp, fit_path_of p = Ok fp ↔
         ∃ dirs name,
           p = DATA_PATH ++ ["300W-3D"] ++ dirs ++ [name] ∧
           name ≠ EmptyString ∧
           fp = DATA_PATH ++ ["300W-3D-Face"] ++ dirs
                ++ [with_suffix_name name ".mat"]) ∧
  (∀ e, fit_path_of p = Raise e → e = ValueError).
Proof.
  unfold fit_path_of.
  destruct (relative_to_cases p (DATA_PATH ++ ["300W-3D"]))
    as [(rest & Hp & Hrel)|[Hno Hrel]]; rewrite Hrel; cbn [rbind].
  - destruct (with_suffix_cases rest ".mat")
      as [(dirs & name & -> & Hne & Hsuf)|[Hno Hsuf]]; rewrite Hsuf;
      cbn [rbind].
    + split; [|discriminate]. intros fp. split.
      * intros [= <-]. exists dirs, name. rewrite Hp, <- app_assoc. auto.
      * intros (dirs' & name' & Hp' & _ & ->).
        rewrite Hp, <- app_assoc in Hp'. apply app_inv_head in Hp'.
        apply (app_inv_head ["300W-3D"]) in Hp'.
        apply app_inj_tail in Hp'. destruct Hp' as [<- <-]. reflexivity.
    + split; [|intros e [= <-]; reflexivity]. intros fp. split; [discriminate|].
      intros (dirs & name & Hp' & Hne & _). exfalso.
      rewrite Hp, <- app_assoc in Hp'. apply app_inv_head in Hp'.
      apply (app_inv_head ["300W-3D"]) in Hp'.
      apply (Hno dirs name Hne Hp').
  - split; [|intros e [= <-]; reflexivity]. intros fp. split; [discriminate|].
    intros (dirs & name & Hp' & _). exfalso.
    apply (Hno (dirs ++ [name])). rewrite Hp', <- app_assoc. reflexivity.
Qed.

(** X5. The fit of the image [stem.ext] is [stem.mat] in the same
    directory of the parallel tree, so two images of one directory that
    differ only in their extension are given the same fit file. *)
Theorem images_with_one_stem_share_a_fit
    (dirs : path) (stem ext1 ext2 : string) :
  stem ≠ EmptyString →
  ext1 ≠ EmptyString → split_last_dot ext1 = None →
  ext2 ≠ EmptyString → split_last_dot ext2 = None →
  fit_path_of (DATA_PATH ++ ["300W-3D"] ++ dirs ++ [stem +:+ String "."%char ext1])
  = Ok (DATA_PATH ++ ["300W-3D-Face"] ++ dirs ++ [stem +:+ ".mat"]) ∧
  fit_path_of (DATA_PATH ++ ["300W-3D"] ++ dirs ++ [stem +:+ String "."%char ext2])
  = fit_path_of (DATA_PATH ++ ["300W-3D"] ++ dirs ++ [stem +:+ String "."%char ext1]).
Proof.
  intros Hstem He1 Hd1 He2 Hd2.
  rewrite (fit_path_of_image dirs stem ext1 Hstem He1 Hd1),
          (fit_path_of_image dirs stem ext2 Hstem He2 Hd2).
  split; reflexivity.
Qed.

(** X6. For an image path that is not a file below [DATA_PATH/300W-3D],
    [load_data_with_feature_sample] raises [ValueError] whatever the
    files hold, and leaves the process state as it was: no file is
    consulted. *)
Theorem path_outside_the_tree_raises
    (p : path) (e : Q) (w : world) (st : pstate) :
  (∀ dirs name, name ≠ EmptyString →
                p ≠ DATA_PATH ++ ["300W-3D"] ++ dirs ++ [name]) →
  load_data_with_feature_sample p e w st = (Raise ValueError, st).
Proof.
  intros Hout.
  assert (Hfp : fit_path_of p = Raise ValueError).
  { unfold fit_path_of.
    destruct (relative_to_cases p (DATA_PATH ++ ["300W-3D"]))
      as [(rest & Hp & Hrel)|[_ Hrel]]; rewrite Hrel; [|reflexivity].
    cbn [rbind].
    destruct (with_suffix_cases rest ".mat")
      as [(dirs & name & -> & Hne & _)|[_ Hsuf]].
    - exfalso. apply (Hout dirs name Hne). rewrite Hp, <- app_assoc.
      reflexivity.
    - rewrite Hsuf. reflexivity. }
  unfold load_data_with_feature_sample, load_img_and_fit.
  unfold bind at 1. unfold bind at 1. rewrite Hfp. reflexivity.
Qed.

(** X7. When the fit file exists but holds no variable [Fitted_Face],
    the loader raises [KeyError] for that name, after the image has been
    read and converted to greyscale, and leaves the process state as it
    was: the triangle list is not asked for. *)
Theorem fit_without_fitted_face_raises
    (p fp : path) (e : Q) (w : world) (st : pstate)
    (colour img : Image) (vars : gmap string matrix) :
  fit_path_of p = Ok fp →
  w !! p = Some (ImageFile colour) →
  as_greyscale colour = Ok img →
  w !! fp = Some (MatFile vars) →
  vars !! "Fitted_Face" = None →
  load_data_with_feature_sample p e w st
  = (Raise (KeyError "Fitted_Face"), st).
Proof.
  intros Hfp Himg Hgrey Hfit Hkey.
  unfold load_data_with_feature_sample, load_img_and_fit.
  unfold bind at 1. unfold bind at 1. rewrite Hfp. cbn [lift].
  unfold bind at 1. unfold import_image. rewrite Himg.
  unfold bind at 1. rewrite Hgrey. cbn [lift].
  unfold bind at 1. unfold loadmat. rewrite Hfit.
  unfold bind at 1. unfold dict_get. rewrite Hkey. reflexivity.
Qed.

End PathFacts.

(** ** The vertices of a sample *)

Section SampleFacts.
Context `{Externals}.

(** A successful run of [load_img_and_fit], step by step. *)
Lemma load_img_and_fit_inv p w st img fit st1 :
  load_img_and_fit p w st = (Ok (img, fit), st1) →
  ∃ fp colour vars raw,
    fit_path_of p = Ok fp ∧
    w !! p = Some (ImageFile colour) ∧
    as_greyscale colour = Ok img ∧
    w !! fp = Some (MatFile vars) ∧
    vars !! "Fitted_Face" = Some raw ∧
    convert_raw_3d_fit_to_img_trimesh_fit raw img w st = (Ok fit, st1).
Proof.
  unfold load_img_and_fit. intros Hrun.
  apply bind_inv_ok in Hrun. destruct Hrun as (fp & s1 & Hfp & Hrun).
  apply lift_inv_ok in Hfp. destruct Hfp as [Hfp ->].
  apply bind_inv_ok in Hrun. destruct Hrun as (colour & s2 & Himg & Hrun).
  apply bind_inv_ok in Hrun. destruct Hrun as (img' & s3 & Hgrey & Hrun).
  apply lift_inv_ok in Hgrey. destruct Hgrey as [Hgrey ->].
  apply bind_inv_ok in Hrun. destruct Hrun as (vars & s4 & Hmat & Hrun).
  apply bind_inv_ok in Hrun. destruct Hrun as (raw & s5 & Hraw & Hrun).
  apply lift_inv_ok in Hraw. destruct Hraw as [Hraw ->].
  apply bind_inv_ok in Hrun. destruct Hrun as (fit' & s6 & Hconv & Hrun).
  apply ret_inv in Hrun. destruct Hrun as [[= -> ->] ->].
  unfold import_image in Himg.
  destruct (w !! p) as [[colour'|?]|] eqn:Hp; try discriminate Himg.
  injection Himg as -> ->.
  unfold loadmat in Hmat.
  destruct (w !! fp) as [[?|vars']|] eqn:Hf; try discriminate Hmat.
  injection Hmat as -> ->.
  unfold dict_get in Hraw.
  destruct (vars !! "Fitted_Face") as [raw'|] eqn:Hk; [|discriminate Hraw].
  injection Hraw as ->.
  exists fp, colour, vars, raw. auto 10.
Qed.

(** A successful run of the conversion: the raw fit has three rows, the
    second and the third of one length. *)
Lemma convert_inv raw img w st fit st1 :
  convert_raw_3d_fit_to_img_trimesh_fit raw img w st = (Ok fit, st1) →
  ∃ a b c rest tri,
    raw = a :: b :: c :: rest ∧
    length c = length b ∧
    load_trilist w st = (Ok tri, st1) ∧
    fit = {| points :=
               transpose [scalar_sub (height img) (map (λ x, (x - 1)%Q) b);
                          map (λ x, (x - 1)%Q) a;
                          mul_scalar c (-1)];
             trilist := tri |}.
Proof.
  destruct raw as [|a [|b [|c rest]]]; try discriminate.
  unfold convert_raw_3d_fit_to_img_trimesh_fit, vstack_row.
  cbn -[Qminus Qmult height transpose mul_scalar scalar_sub load_trilist bind].
  erewrite !bind_lift_ok by reflexivity.
  destruct (decide _) as [Hok|Hno]; [|discriminate].
  erewrite bind_lift_ok by reflexivity. intros Hrun.
  apply bind_inv_ok in Hrun. destruct Hrun as (tri & s1 & Htri & Hrun).
  apply ret_inv in Hrun. destruct Hrun as [-> ->].
  exists a, b, c, rest, tri. split; [reflexivity|].
  split; [|split; [exact Htri|reflexivity]].
  destruct Hok as [Hok|Hok]; [discriminate Hok|].
  unfold mul_scalar, scalar_sub in Hok. rewrite !length_map in Hok. exact Hok.
Qed.

(** A row of the array after the two assignments of the normalisation
    step: the third coordinate is the old one, divided. *)
Lemma normalised_row (rs : matrix) (pc : list (Q * Q)) (pts : matrix)
    (k : Q) (j : nat) (r : list Q) :
  width_is 3 rs →
  assign_first_two rs (pc_points pc) = Ok pts →
  rs !! j = Some r →
  ∃ y x, divide_third pts k !! j = Some [y; x; (nth 2 r 0 / k)%Q].
Proof.
  intros Hw Hpts Hr.
  assert (Hr3 : length r = 3%nat).
  { unfold width_is in Hw. rewrite Forall_lookup in Hw. exact (Hw j r Hr). }
  destruct r as [|y0 [|x0 [|z [|? ?]]]]; try discriminate Hr3.
  unfold assign_first_two in Hpts. rewrite pc_points_length in Hpts.
  unfold divide_third. rewrite list_lookup_fmap.
  destruct (decide (length pc = length rs)) as [Hlen|Hlen].
  - injection Hpts as <-.
    destruct (pc !! j) as [q|] eqn:Hq.
    + exists (fst q), (snd q). rewrite lookup_zip_with, Hr. cbn [mbind option_bind].
      unfold pc_points. rewrite list_lookup_fmap, Hq. reflexivity.
    + apply lookup_ge_None in Hq. apply lookup_lt_Some in Hr. lia.
  - destruct pc as [|q [|? ?]]; try discriminate Hpts.
    cbn [pc_points map] in Hpts. injection Hpts as <-.
    exists (fst q), (snd q). rewrite list_lookup_fmap, Hr. reflexivity.
Qed.

Lemma normalised_length (rs value pts : matrix) (k : Q) :
  assign_first_two rs value = Ok pts →
  length (divide_third pts k) = length rs.
Proof.
  unfold assign_first_two, divide_third. rewrite length_map.
  destruct (decide (length value = length rs)) as [Hlen|Hlen].
  - intros [= <-]. rewrite length_zip_with. lia.
  - destruct value as [|v [|? ?]]; try discriminate.
    intros [= <-]. apply length_map.
Qed.


(** X9. The normalisation step neither adds nor drops a vertex: a
    returned sample has one vertex for each column of the raw fit, each
    with three coordinates. *)
Theorem sample_keeps_the_vertices
    (p fp : path) (e : Q) (w : world) (st st1 : pstate)
    (img feat : Image) (mesh : TriMesh)
    (vars : gmap string matrix) (raw : matrix) (b : list Q) :
  fit_path_of p = Ok fp →
  w !! fp = Some (MatFile vars) →
  vars !! "Fitted_Face" = Some raw →
  raw !! 1%nat = Some b →
  load_data_with_feature_sample p e w st = (Ok (img, feat, mesh), st1) →
  length (points mesh) = length b ∧ width_is 3 (points mesh).
Proof.
  intros Hfp Hfit Hkey Hb Hrun. apply load_data_inv in Hrun.
  destruct Hrun as (img0 & fit & fit_2d & tr & rescaled & pts & scale0 &
                    Hload & Hpc & Hres & Hlm & Hpts & Hsc & Hfeat & ->).
  pose proof (load_img_and_fit_width _ _ _ _ _ _ Hload) as Hw.
  pose proof (normalised_length _ _ _ scale0 Hpts) as Hlen.
  cbn [points]. split.
  - rewrite Hlen. apply load_img_and_fit_inv in Hload.
    destruct Hload as (fp' & colour & vars' & raw' & Hfp' & _ & _ & Hfit' &
                       Hkey' & Hconv).
    rewrite Hfp in Hfp'. injection Hfp' as <-.
    rewrite Hfit in Hfit'. injection Hfit' as <-.
    rewrite Hkey in Hkey'. injection Hkey' as <-.
    apply convert_inv in Hconv.
    destruct Hconv as (a & b' & c & rest & tri & -> & _ & _ & ->).
    injection Hb as <-. cbn [points]. rewrite transpose_length. cbn [ncols].
    unfold scalar_sub. rewrite !length_map. reflexivity.
  - unfold width_is. apply Forall_lookup. intros j r' Hj.
    assert (Hlt : (j < length (points fit))%nat)
      by (rewrite <- Hlen; apply lookup_lt_Some in Hj; exact Hj).
    destruct (lookup_lt_is_Some_2 _ _ Hlt) as [r Hr].
    destruct (normalised_row _ _ _ scale0 _ _ Hw Hpts Hr) as (y & x & Hj').
    rewrite Hj in Hj'. injection Hj' as ->. reflexivity.
Qed.

End SampleFacts.

(** ** Indexing the lazy sequences *)

Section IndexFacts.
Context `{Externals}.

Lemma getitem_range_error {A} (l : LazyList A) (i : Z) w st :
  (Z.of_nat (length l) ≤ i ∨ i < - Z.of_nat (length l))%Z →
  getitem l i w st = (Raise IndexError, st).
Proof.
  intros Hi. unfold getitem. cbv zeta.
  destruct (Z.ltb_spec i 0) as [Hneg|Hpos].
  - destruct (Z.ltb_spec (i + Z.of_nat (length l)) 0) as [_|Hk];
      [reflexivity|lia].
  - destruct (Z.ltb_spec i 0) as [?|_]; [lia|].
    rewrite (lookup_ge_None_2 l (Z.to_nat i)) by lia. reflexivity.
Qed.

(** A non-negative index that exists. *)
Lemma getitem_at {A} (l : LazyList A) (k : nat) (c : M A) :
  l !! k = Some c → getitem l (Z.of_nat k) = c.
Proof.
  intros Hc. unfold getitem.
  assert (Hneg : (Z.of_nat k <? 0)%Z = false) by (apply Z.ltb_ge; lia).
  cbv zeta. rewrite Hneg. cbv iota. rewrite Hneg.
  rewrite Nat2Z.id, Hc. reflexivity.
Qed.

(** A negative index counts from the end. *)
Lemma getitem_from_end {A} (l : LazyList A) (k : nat) (c : M A) :
  l !! k = Some c → getitem l (Z.of_nat k - Z.of_nat (length l)) = c.
Proof.
  intros Hc. pose proof (lookup_lt_Some _ _ _ Hc) as Hk. unfold getitem.
  assert (Hneg : (Z.of_nat k - Z.of_nat (length l) <? 0)%Z = true)
    by (apply Z.ltb_lt; lia).
  cbv zeta. rewrite Hneg. cbv iota.
  replace (Z.of_nat k - Z.of_nat (length l) + Z.of_nat (length l))%Z
    with (Z.of_nat k) by lia.
  assert (Hpos : (Z.of_nat k <? 0)%Z = false) by (apply Z.ltb_ge; lia).
  rewrite Hpos, Nat2Z.id, Hc. reflexivity.
Qed.

(** Indexing a mapped lazy list is indexing the list, then the map. *)
Lemma getitem_lazy_map {A B} (f : A → M B) (l : LazyList A) (i : Z) w st :
  getitem (lazy_map f l) i w st = bind (getitem l i) f w st.
Proof.
  unfold getitem, lazy_map. rewrite length_map. cbv zeta.
  destruct (_ <? 0)%Z; [reflexivity|].
  rewrite list_lookup_fmap. destruct (l !! _); reflexivity.
Qed.

(** X10. An index outside the sequence, [i >= n] or [i < -n] for [n]
    image paths, raises [IndexError]; no file is read and the process
    state stays as it was.  (The notebook asks for the elements 100 and
    4 of [imgs_features_and_fits].) *)
Theorem index_out_of_range_raises
    (img_paths : list path) (i : Z) (w : world) (st : pstate) :
  (Z.of_nat (length img_paths) ≤ i ∨ i < - Z.of_nat (length img_paths))%Z →
  getitem (imgs_features_and_fits img_paths) i w st = (Raise IndexError, st).
Proof.
  intros Hi. apply getitem_range_error.
  rewrite imgs_features_and_fits_length. exact Hi.
Qed.

(** X11. The element [k] of [imgs_features_and_fits] is
    [load_data_with_feature_sample] on the [k]-th image path, with
    [err_proportion] at its default; it depends on no other path.  The
    negative index [k - n] names the same element. *)
Theorem element_is_the_loader_on_its_path
    (img_paths : list path) (k : nat) (p : path) (w : world) (st : pstate) :
  img_paths !! k = Some p →
  getitem (imgs_features_and_fits img_paths) (Z.of_nat k) w st
  = load_data_with_feature_sample p err_proportion_default w st ∧
  getitem (imgs_features_and_fits img_paths)
          (Z.of_nat k - Z.of_nat (length img_paths)) w st
  = load_data_with_feature_sample p err_proportion_default w st.
Proof.
  intros Hp.
  assert (Hc : imgs_features_and_fits img_paths !! k
               = Some (bind (ret p)
                         (λ p, load_data_with_feature_sample p
                                 err_proportion_default)))
    by (rewrite imgs_features_and_fits_lookup, Hp; reflexivity).
  split.
  - rewrite (getitem_at _ _ _ Hc). reflexivity.
  - rewrite <- (imgs_features_and_fits_length img_paths).
    rewrite (getitem_from_end _ _ _ Hc). reflexivity.
Qed.

(** X12. [features_and_fits[i]] is [imgs_features_and_fits[i]] without
    its image: it returns the feature image and the mesh of that sample,
    raises what that access raises, and leaves the same state. *)
Theorem features_and_fits_drops_the_image
    (img_paths : list path) (i : Z) (w : world) (st : pstate) :
  getitem (features_and_fits img_paths) i w st
  = match getitem (imgs_features_and_fits img_paths) i w st with
    | (Ok x, st') => (Ok (snd (fst x), snd x), st')
    | (Raise e, st') => (Raise e, st')
    end.
Proof.
  unfold features_and_fits. rewrite getitem_lazy_map. unfold bind.
  destruct (getitem _ i w st) as [[x|e] st']; reflexivity.
Qed.

(** X13. The sequence handed to the model builder,
    [features_and_fits_32bit[:n_imgs_for_rpca]], has
    [min 100 n] elements for [n] image paths.  Its element [k] is the
    sample of the [k]-th path with the feature image cast to 32 bits and
    the mesh as it is; an error of that sample surfaces when the element
    is accessed.  The indices from 100 on raise [IndexError], however
    many images there are. *)
Theorem training_set_elements
    (img_paths : list path) (k : nat) (p : path) (w : world) (st : pstate) :
  (k < n_imgs_for_rpca)%nat →
  img_paths !! k = Some p →
  length (training_set img_paths) = Nat.min 100 (length img_paths) ∧
  getitem (training_set img_paths) (Z.of_nat k) w st
  = match load_data_with_feature_sample p err_proportion_default w st with
    | (Ok x, st') => (Ok (as_float32_image (snd (fst x)), snd x), st')
    | (Raise e, st') => (Raise e, st')
    end ∧
  ∀ m : nat,
    getitem (training_set img_paths) (Z.of_nat (n_imgs_for_rpca + m)) w st
    = (Raise IndexError, st).
Proof.
  intros Hk Hp.
  assert (Hlen : length (training_set img_paths)
                 = Nat.min 100 (length img_paths)).
  { unfold training_set, slice_to, features_and_fits_32bit, features_and_fits,
      lazy_map.
    rewrite length_take, !length_map, imgs_features_and_fits_length.
    reflexivity. }
  split; [exact Hlen|]. split.
  - assert (Hc : imgs_features_and_fits img_paths !! k
                 = Some (bind (ret p)
                           (λ p, load_data_with_feature_sample p
                                   err_proportion_default)))
      by (rewrite imgs_features_and_fits_lookup, Hp; reflexivity).
    assert (Ht : training_set img_paths !! k
                 = Some (bind (bind (bind (ret p)
                           (λ p, load_data_with_feature_sample p
                                   err_proportion_default))
                           (λ x, ret (snd (fst x), snd x)))
                           (λ x, ret (as_float32_image (fst x), snd x)))).
    { unfold training_set, slice_to, features_and_fits_32bit,
        features_and_fits, lazy_map.
      rewrite lookup_take_lt by exact Hk.
      rewrite !list_lookup_fmap, Hc. reflexivity. }
    rewrite (getitem_at _ _ _ Ht). unfold bind, ret.
    destruct (load_data_with_feature_sample p err_proportion_default w st)
      as [[x|e] st']; reflexivity.
  - intros m. apply getitem_range_error. left. rewrite Hlen.
    unfold n_imgs_for_rpca. lia.
Qed.

End IndexFacts.

(** ** [as_float32] on objects and on values *)

Section CastFacts.
Context `{Externals}.

(** X14. [as_float32] on the heap computes [as_float32_image]: when the
    object passed to it stands for the image [I], the object it returns
    stands for [I] with its pixels cast to 32 bits and its landmarks as
    they are, and the object passed still stands for [I].  The call
    allocates one image object and two arrays: the copy of the pixels
    made by [img.copy()], which the result no longer refers to, and the
    cast array. *)
Theorem as_float32_casts_the_image (h : heap) (img : nat) (I : Image) :
  image_at h img = Some I →
  ∃ img' h',
    as_float32 img h = (Ok img', h') ∧
    image_at h' img' = Some (as_float32_image I) ∧
    image_at h' img = Some I ∧
    length (images h') = S (length (images h)) ∧
    length (arrays h') = S (S (length (arrays h))).
Proof.
  unfold image_at. intros HI.
  destruct (images h !! img) as [o|] eqn:Himg; [|discriminate HI].
  destruct (arrays h !! obj_pixels o) as [a|] eqn:Harr; [|discriminate HI].
  injection HI as <-.
  pose proof (lookup_lt_Some _ _ _ Himg) as Hli.
  pose proof (lookup_lt_Some _ _ _ Harr) as Hla.
  do 2 eexists. split; [apply (as_float32_run h img o a Himg Harr)|].
  cbn [arrays images]. split; [|split; [|split]].
  - rewrite (list_lookup_middle (images h) [] _ (length (images h)) eq_refl).
    cbn [obj_pixels obj_landmarks].
    rewrite (list_lookup_middle (arrays h ++ [a]) [] _ (S (length (arrays h))))
      by (rewrite length_app; cbn [length]; lia).
    reflexivity.
  - rewrite lookup_app_l by exact Hli. rewrite Himg.
    rewrite <- app_assoc, lookup_app_l by exact Hla. rewrite Harr. reflexivity.
  - rewrite length_app. cbn [length]. lia.
  - rewrite !length_app. cbn [length]. lia.
Qed.

End CastFacts.

(** ** The export cell, run again *)

Section ExportFacts.
Context `{Externals} {Model : Type}.

(** X15. The export overwrites: after the cell has run with the model
    [m1] and then with [m2], the disk is as if it had run with [m2]
    only, and the file holds the object of [m2]; no other file is
    changed by the cell. *)
Theorem export_overwrites_and_keeps_other_files
    (m1 m2 : Model) (disk : gmap path (gmap string (pyvalue Model))) :
  export_cell m2 (export_cell m1 disk) = export_cell m2 disk ∧
  export_cell m2 (export_cell m1 disk) !! (DATA_PATH ++ ["itw_texture_model.pkl"])
  = Some (exported_object m2) ∧
  ∀ p, p ≠ DATA_PATH ++ ["itw_texture_model.pkl"] →
       export_cell m1 disk !! p = disk !! p.
Proof.
  unfold export_cell, export_pickle. split; [apply insert_insert_eq|].
  split; [apply lookup_insert_eq|].
  intros p Hp. apply lookup_insert_ne. congruence.
Qed.

End ExportFacts.

(** ** A session over the three sequences *)

Section SessionFacts.
Context `{Externals}.

Lemma respects_getitem_all {A} (tri_of : A → matrix) (l : LazyList A) (i : Z) :
  Forall (respects_cache tri_of) l → respects_cache tri_of (getitem l i).
Proof.
  intros Hall. unfold getitem. cbv zeta.
  destruct (_ <? 0)%Z; [apply respects_raise|].
  destruct (l !! _) as [c|] eqn:Hc; [|apply respects_raise].
  rewrite Forall_lookup in Hall. exact (Hall _ _ Hc).
Qed.

Lemma respects_samples img_paths :
  Forall (respects_cache tri3) (imgs_features_and_fits img_paths).
Proof.
  apply Forall_lookup. intros k c Hc.
  rewrite imgs_features_and_fits_lookup in Hc.
  destruct (img_paths !! k) as [p|]; [|discriminate Hc].
  injection Hc as <-.
  apply respects_prefix; [apply purely_ret|]. intros q.
  apply respects_load_data.
Qed.

Lemma respects_features_and_fits img_paths :
  Forall (respects_cache (λ x : Image * TriMesh, trilist (snd x)))
         (features_and_fits img_paths).
Proof.
  unfold features_and_fits, lazy_map. rewrite Forall_fmap.
  eapply Forall_impl; [apply respects_samples|].
  intros c Hc. cbn [compose].
  apply (respects_suffix tri3).
  - exact Hc.
  - intros x. apply purely_ret.
  - intros x w st b st1 [= <- _]. reflexivity.
Qed.

Lemma respects_training_set img_paths :
  Forall (respects_cache (λ x : Image * TriMesh, trilist (snd x)))
         (training_set img_paths).
Proof.
  unfold training_set, slice_to. apply Forall_take.
  unfold features_and_fits_32bit, lazy_map. rewrite Forall_fmap.
  eapply Forall_impl; [apply respects_features_and_fits|].
  intros c Hc. cbn [compose].
  apply (respects_suffix (λ x : Image * TriMesh, trilist (snd x))).
  - exact Hc.
  - intros x. apply purely_ret.
  - intros x w st b st1 [= <- _]. reflexivity.
Qed.

Lemma respects_mesh_of_access img_paths a :
  respects_cache trilist (mesh_of_access img_paths a).
Proof.
  destruct a as [i|i|i]; unfold mesh_of_access.
  - apply (respects_suffix tri3); [apply respects_getitem| |].
    + intros x. apply purely_ret.
    + intros x w st b st1 [= <- _]. reflexivity.
  - apply (respects_suffix (λ x : Image * TriMesh, trilist (snd x))).
    + apply respects_getitem_all, respects_features_and_fits.
    + intros x. apply purely_ret.
    + intros x w st b st1 [= <- _]. reflexivity.
  - apply (respects_suffix (λ x : Image * TriMesh, trilist (snd x))).
    + apply respects_getitem_all, respects_training_set.
    + intros x. apply purely_ret.
    + intros x w st b st1 [= <- _]. reflexivity.
Qed.

Lemma run_session_cons img_paths w a trace st :
  run_session img_paths ((w, a) :: trace) st
  = (fst (mesh_of_access img_paths a w st)
       :: fst (run_session img_paths trace
                 (snd (mesh_of_access img_paths a w st))),
     snd (run_session img_paths trace
            (snd (mesh_of_access img_paths a w st)))).
Proof.
  simpl. destruct (mesh_of_access img_paths a w st) as [r st1]. simpl.
  destruct (run_session img_paths trace st1) as [rs st2]. reflexivity.
Qed.

Lemma run_session_cache img_paths trace st0 :
  let run := run_session img_paths trace st0 in
  match trilist_cache st0 with
  | Some t =>
      snd run = st0 ∧ Forall (λ r, ∀ m, r = Ok m → trilist m = t) (fst run)
  | None =>
      (snd run = st0 ∧ Forall (λ r, ∀ m : TriMesh, r ≠ Ok m) (fst run)) ∨
      (∃ t, trilist_cache (snd run) = Some t ∧
            trilist_loads (snd run) = S (trilist_loads st0) ∧
            Forall (λ r, ∀ m, r = Ok m → trilist m = t) (fst run))
  end.
Proof.
  revert st0. induction trace as [|[w a] trace IH]; intros st0.
  - simpl. destruct (trilist_cache st0); [split; [reflexivity|constructor]|].
    left. split; [reflexivity|constructor].
  - cbv zeta. rewrite run_session_cons. cbn [fst snd].
    destruct (mesh_of_access img_paths a w st0) as [r st1] eqn:Hrun.
    cbn [fst snd].
    destruct (respects_mesh_of_access img_paths a _ _ _ _ Hrun) as [_ Hcase].
    specialize (IH st1). cbv zeta in IH.
    destruct (trilist_cache st0) as [t|] eqn:Hc.
    + destruct Hcase as [-> Hr]. rewrite Hc in IH. destruct IH as [IH1 IH2].
      split; [exact IH1|]. constructor; [exact Hr|exact IH2].
    + destruct Hcase as [[-> Hr]|(t & _ & -> & Hr)].
      * rewrite Hc in IH. destruct IH as [[IH1 IH2]|(t & IH1 & IH2 & IH3)].
        -- left. split; [exact IH1|]. constructor; [exact Hr|exact IH2].
        -- right. exists t. split; [exact IH1|]. split; [exact IH2|].
           constructor; [|exact IH3]. intros x Hx. destruct (Hr x Hx).
      * simpl in IH. destruct IH as [IH1 IH2]. right. exists t.
        rewrite IH1. split; [reflexivity|]. split; [reflexivity|].
        constructor; [exact Hr|exact IH2].
Qed.

(** X16. Across the three sequences of the notebook
    ([imgs_features_and_fits], [features_and_fits] and the training
    sequence), in any order of accesses and whatever the files are at
    each access, the connectivity file is loaded at most once and all
    meshes returned carry the same triangle list. *)
Theorem session_shares_the_trilist
    (img_paths : list path) (trace : list (world * access)) :
  let run := run_session img_paths trace fresh_process in
  (trilist_loads (snd run) ≤ 1)%nat ∧
  ∀ i j m1 m2,
    fst run !! i = Some (Ok m1) → fst run !! j = Some (Ok m2) →
    trilist m1 = trilist m2.
Proof.
  intros run.
  pose proof (run_session_cache img_paths trace fresh_process) as Hinv.
  cbv zeta in Hinv. fold run in Hinv. cbn [trilist_cache fresh_process] in Hinv.
  destruct Hinv as [[Hst Hnone]|(t & Hc & Hn & Hall)].
  - rewrite Hst. cbn [trilist_loads fresh_process]. split; [lia|].
    intros i j m1 m2 Hi _. rewrite Forall_lookup in Hnone.
    destruct (Hnone i _ Hi m1 eq_refl).
  - rewrite Hn. cbn [trilist_loads fresh_process]. split; [lia|].
    rewrite Forall_lookup in Hall. intros i j m1 m2 Hi Hj.
    rewrite (Hall i _ Hi m1 eq_refl), (Hall j _ Hj m2 eq_refl). reflexivity.
Qed.

End SessionFacts.

(** ** The sample under the exact rescale *)

(** X18. With the rescale of the library in exact arithmetic, whatever
    the feature computes: a returned sample comes from a mesh whose
    projected bounding box has a rational diagonal [r]; the scale of the
    rescale is [s = 180 / r], and the sides of the bounding box of the
    sample are those of the mesh read from disk multiplied by
    [(s * n - 1) / (n - 1)], [n] the number of pixels of the image along
    the axis (as long as that factor is positive), not by [s]. *)
Theorem exact_sample_extents
    (f : feature_fn → Image → result Image)
    (p : path) (e : Q) (w : world) (st st1 : pstate)
    (img feat : Image) (mesh : TriMesh) :
  @load_data_with_feature_sample (Exact.externals_with f) p e w st
  = (Ok (img, feat, mesh), st1) →
  ∃ img0 fit r,
    @load_img_and_fit (Exact.externals_with f) p w st = (Ok (img0, fit), st1) ∧
    (0 <= r)%Q ∧
    (r * r == diag_sq (column 0 (points fit)) (column 1 (points fit)))%Q ∧
    let s := (inject_Z DIAGONAL_RANGE / r)%Q in
    let fy := Exact.axis_factor s (fst (shape img0)) in
    let fx := Exact.axis_factor s (snd (shape img0)) in
    (0 < s)%Q ∧
    ((0 < fy)%Q → (0 < fx)%Q →
     (extent (column 0 (points mesh))
      == extent (column 0 (points fit)) * fy)%Q ∧
     (extent (column 1 (points mesh))
      == extent (column 1 (points fit)) * fx)%Q).
Proof.
  intros Hrun. pose proof Hrun as Hinv. apply load_data_inv in Hinv.
  destruct Hinv as (img0 & fit & fit_2d & tr & rescaled & pts & scale0 &
                    Hload & Hpc & Hres & Hlm & Hpts & Hsc & Hfeat & ->).
  pose proof (load_img_and_fit_width _ _ _ _ _ _ Hload) as Hw.
  pose proof (point_cloud_2d_of_width_3 _ _ Hw Hpc) as Hfit_2d.
  pose proof Hres as Hinv. apply exact_rescale_inv in Hinv.
  destruct Hinv as (group & lms & r & Hgroup & Hsq & Hr & Hs & Htr & _).
  assert (Hlms : lms = fit_2d).
  { assert (Hin : landmarks (set_landmarks img0 "fit_2d" fit_2d) !! "fit_2d"
                  = Some fit_2d) by apply lookup_insert_eq.
    rewrite Hgroup in Hin. apply lookup_singleton_Some in Hin.
    destruct Hin as [_ Hin]. exact Hin. }
  subst lms. rewrite Hfit_2d, fit_2d_diag in Hsq.
  exists img0, fit, r. split; [exact Hload|]. split; [exact Hr|].
  split; [exact Hsq|]. cbv zeta. split; [exact Hs|]. intros Hfy Hfx.
  change (shape (set_landmarks img0 "fit_2d" fit_2d)) with (shape img0) in Htr.
  destruct (sample_extents _ _ _ _ _ _ _ _ _ _ _ _ _ _ _ _
              (exact_rescale_warps f) Hload Hpc Hres
              (f_equal scale Htr)
              (Qinv_lt_0_compat _ Hfy) (Qinv_lt_0_compat _ Hfx) Hrun)
    as (_ & Hey & Hex).
  rewrite Hey, Hex. unfold Qdiv. rewrite !Qinv_involutive.
  split; reflexivity.
Qed.

(** ** The triangle list of a mesh, as an object *)

Section MeshObjectFacts.
Context `{Externals}.

(** X17. A mesh holds a copy of the cached triangle list.  When
    [load_trilist] returns the list [t], the mesh built with it holds an
    array with the content [t] at an address that was free before, and
    which is not the address of the array kept by the cache; the arrays
    that existed stay as they were, and the heap stands for the state
    that [load_trilist] leaves.  Hence no two meshes hold the same
    array, and none holds the array of the cache. *)
Theorem mesh_holds_a_copy_of_the_trilist
    (w : world) (h : tri_heap) (st st' : pstate) (t : matrix) :
  tri_heap_represents h st →
  load_trilist w st = (Ok t, st') →
  ∃ a h' c,
    mesh_trilist_object w h = (Ok a, h') ∧
    tri_heap_represents h' st' ∧
    tri_slot h' = Some c ∧
    tri_arrays h' !! c = Some t ∧
    tri_arrays h' !! a = Some t ∧
    a ≠ c ∧
    tri_arrays h !! a = None ∧
    ∀ b, (b < length (tri_arrays h))%nat →
         tri_arrays h' !! b = tri_arrays h !! b.
Proof.
  intros Hrep Hrun. pose proof (load_trilist_cases w st) as Hcase.
  unfold tri_heap_represents in Hrep.
  unfold mesh_trilist_object, load_trilist_object.
  destruct (tri_slot h) as [c|] eqn:Hslot;
    destruct (trilist_cache st) as [t0|] eqn:Hc; try contradiction.
  - rewrite Hcase in Hrun. injection Hrun as <- <-.
    unfold trimesh_trilist. rewrite Hrep.
    pose proof (lookup_lt_Some _ _ _ Hrep) as Hlt.
    eexists _, _, c. split; [reflexivity|].
    unfold tri_heap_represents. cbn [tri_slot tri_arrays]. rewrite Hslot, Hc.
    rewrite (lookup_app_l _ _ c) by exact Hlt.
    split; [exact Hrep|]. split; [reflexivity|]. split; [exact Hrep|].
    split; [rewrite lookup_app_r, Nat.sub_diag by lia; reflexivity|].
    split; [lia|]. split; [apply lookup_ge_None; lia|].
    intros b Hb. apply lookup_app_l. exact Hb.
  - destruct (fst (load_trilist_body w fresh_process)) as [t1|e] eqn:Hb;
      [|congruence].
    rewrite Hcase in Hrun. injection Hrun as <- <-.
    unfold trimesh_trilist. cbn [tri_arrays tri_slot].
    rewrite lookup_app_r, Nat.sub_diag by lia. cbn [lookup list_lookup].
    eexists _, _, (length (tri_arrays h)). split; [reflexivity|].
    unfold tri_heap_represents. cbn [tri_slot tri_arrays stored trilist_cache].
    assert (Hc' : ((tri_arrays h ++ [t1]) ++ [t1]) !! length (tri_arrays h)
                  = Some t1).
    { rewrite <- app_assoc, lookup_app_r, Nat.sub_diag by lia. reflexivity. }
    split; [exact Hc'|]. split; [reflexivity|]. split; [exact Hc'|].
    split.
    { rewrite lookup_app_r by (rewrite length_app; cbn [length]; lia).
      rewrite length_app. cbn [length].
      replace (length (tri_arrays h) + 1 - (length (tri_arrays h) + 1))%nat
        with 0%nat by lia.
      reflexivity. }
    split; [rewrite length_app; cbn [length]; lia|].
    split; [apply lookup_ge_None; rewrite length_app; cbn [length]; lia|].
    intros b Hlt. rewrite <- app_assoc. apply lookup_app_l. exact Hlt.
Qed.

End MeshObjectFacts.

(** ** The further properties on concrete files *)

Lemma load_trilist_triangles_witness :
  trilist_cache fresh_process = None ∧
  Exact.disk !! (@DATA_PATH Exact.externals ++
                 ["300W-3D"; "Code"; "ModelGeneration"; "model_info.mat"])
  = Some (MatFile Exact.model_info) ∧
  Exact.model_info !! "tri" = Some [[1; 2]; [2; 3]; [3; 4]]%Q ∧
  ∃ tris,
    @load_trilist Exact.externals Exact.disk fresh_process
    = (Ok tris, stored tris fresh_process) ∧
    length tris = 2%nat ∧
    tris !! 1%nat = Some [(3 - 1)%Q; (2 - 1)%Q; (4 - 1)%Q].
Proof.
  assert (Hw : Exact.disk !! (@DATA_PATH Exact.externals ++
                 ["300W-3D"; "Code"; "ModelGeneration"; "model_info.mat"])
               = Some (MatFile Exact.model_info)) by (vm_compute; reflexivity).
  assert (Hv : Exact.model_info !! "tri" = Some [[1; 2]; [2; 3]; [3; 4]]%Q)
    by (vm_compute; reflexivity).
  split; [reflexivity|]. split; [exact Hw|]. split; [exact Hv|].
  destruct (@load_trilist_triangles Exact.externals Exact.disk fresh_process
              Exact.model_info [1; 2]%Q [2; 3]%Q [3; 4]%Q [] eq_refl Hw Hv)
    as (tris & Hrun & Hlen & _ & Hk).
  exists tris. split; [exact Hrun|]. split; [exact Hlen|].
  exact (Hk 1%nat 2%Q 3%Q 4%Q eq_refl eq_refl eq_refl).
Defined.

Lemma load_trilist_failure_is_not_cached_witness :
  @load_trilist Exact.externals Exact.disk_without_tri fresh_process
  = (Raise (FileNotFoundError Exact.tri_path), fresh_process) ∧
  Exact.disk !! Exact.tri_path = Some (MatFile Exact.model_info) ∧
  Exact.model_info !! "tri" = Some [[1; 2]; [2; 3]; [3; 4]]%Q ∧
  @load_trilist Exact.externals Exact.disk fresh_process
  = (Ok (sub_scalar (transpose [[2; 3]; [1; 2]; [3; 4]]%Q) 1),
     stored (sub_scalar (transpose [[2; 3]; [1; 2]; [3; 4]]%Q) 1)
            fresh_process).
Proof.
  assert (Hrun : @load_trilist Exact.externals Exact.disk_without_tri
                   fresh_process
                 = (Raise (FileNotFoundError Exact.tri_path), fresh_process))
    by (vm_compute; reflexivity).
  assert (Hw : Exact.disk !! Exact.tri_path = Some (MatFile Exact.model_info))
    by (vm_compute; reflexivity).
  assert (Hv : Exact.model_info !! "tri" = Some [[1; 2]; [2; 3]; [3; 4]]%Q)
    by (vm_compute; reflexivity).
  split; [exact Hrun|]. split; [exact Hw|]. split; [exact Hv|].
  destruct (@load_trilist_failure_is_not_cached Exact.externals _ _ _ _ Hrun)
    as (_ & _ & _ & _ & Hretry).
  exact (Hretry Exact.disk Exact.model_info _ _ _ [] Hw Hv).
Defined.

Lemma convert_row_count_witness :
  (length [[1; 2]; [3; 4]]%Q < 3)%nat ∧
  @convert_raw_3d_fit_to_img_trimesh_fit Exact.externals
    [[1; 2]; [3; 4]]%Q Exact.grey_4 Exact.disk fresh_process
  = (Raise IndexError, fresh_process).
Proof.
  assert (Hlen : (length [[1; 2]; [3; 4]]%Q < 3)%nat) by (cbn [length]; lia).
  split; [exact Hlen|].
  exact (proj1 (@convert_row_count Exact.externals [[1; 2]; [3; 4]]%Q
                  Exact.grey_4 Exact.disk fresh_process) Hlen).
Defined.

Lemma fit_path_characterised_witness :
  @fit_path_of Exact.externals Exact.img_a
  = Ok (Exact.data_path ++ ["300W-3D-Face"; "AFW"; "a.mat"]).
Proof.
  apply (proj1 (@fit_path_characterised Exact.externals Exact.img_a)).
  exists ["AFW"], "a.jpg". split; [reflexivity|].
  split; [discriminate|]. vm_compute. reflexivity.
Defined.

Lemma images_with_one_stem_share_a_fit_witness :
  "a" ≠ EmptyString ∧
  "jpg" ≠ EmptyString ∧ split_last_dot "jpg" = None ∧
  "png" ≠ EmptyString ∧ split_last_dot "png" = None ∧
  @fit_path_of Exact.externals Exact.img_a
  = Ok (Exact.data_path ++ ["300W-3D-Face"; "AFW"; "a.mat"]) ∧
  @fit_path_of Exact.externals (Exact.data_path ++ ["300W-3D"; "AFW"; "a.png"])
  = @fit_path_of Exact.externals Exact.img_a.
Proof.
  split; [discriminate|]. split; [discriminate|]. split; [reflexivity|].
  split; [discriminate|]. split; [reflexivity|].
  exact (@images_with_one_stem_share_a_fit Exact.externals ["AFW"] "a" "jpg"
           "png" ltac:(discriminate) ltac:(discriminate) eq_refl
           ltac:(discriminate) eq_refl).
Defined.

Lemma path_outside_the_tree_raises_witness :
  (∀ dirs name, name ≠ EmptyString →
     ["/"; "tmp"; "x.jpg"] ≠
     @DATA_PATH Exact.externals ++ ["300W-3D"] ++ dirs ++ [name]) ∧
  @load_data_with_feature_sample Exact.externals ["/"; "tmp"; "x.jpg"]
    err_proportion_default Exact.disk fresh_process
  = (Raise ValueError, fresh_process).
Proof.
  assert (Hout : ∀ dirs name, name ≠ EmptyString →
            ["/"; "tmp"; "x.jpg"] ≠
            @DATA_PATH Exact.externals ++ ["300W-3D"] ++ dirs ++ [name])
    by (intros dirs name _; discriminate).
  split; [exact Hout|].
  exact (@path_outside_the_tree_raises Exact.externals ["/"; "tmp"; "x.jpg"]
           err_proportion_default Exact.disk fresh_process Hout).
Defined.

Lemma fit_without_fitted_face_raises_witness :
  @fit_path_of Exact.externals Exact.img_a
  = Ok (Exact.data_path ++ ["300W-3D-Face"; "AFW"; "a.mat"]) ∧
  Exact.disk_without_key !! Exact.img_a = Some (ImageFile (Exact.rgb 4 4)) ∧
  Exact.greyscale (Exact.rgb 4 4) = Ok Exact.grey_of_rgb_4 ∧
  Exact.disk_without_key !! (Exact.data_path ++ ["300W-3D-Face"; "AFW"; "a.mat"])
  = Some (MatFile ∅) ∧
  (∅ : gmap string matrix) !! "Fitted_Face" = None ∧
  @load_data_with_feature_sample Exact.externals Exact.img_a
    err_proportion_default Exact.disk_without_key fresh_process
  = (Raise (KeyError "Fitted_Face"), fresh_process).
Proof.
  assert (Hfp : @fit_path_of Exact.externals Exact.img_a
                = Ok (Exact.data_path ++ ["300W-3D-Face"; "AFW"; "a.mat"]))
    by (vm_compute; reflexivity).
  assert (Himg : Exact.disk_without_key !! Exact.img_a
                 = Some (ImageFile (Exact.rgb 4 4))) by (vm_compute; reflexivity).
  assert (Hfit : Exact.disk_without_key
                   !! (Exact.data_path ++ ["300W-3D-Face"; "AFW"; "a.mat"])
                 = Some (MatFile ∅)) by (vm_compute; reflexivity).
  split; [exact Hfp|]. split; [exact Himg|]. split; [reflexivity|].
  split; [exact Hfit|]. split; [reflexivity|].
  exact (@fit_without_fitted_face_raises Exact.externals _ _
           err_proportion_default _ fresh_process _ Exact.grey_of_rgb_4 _
           Hfp Himg eq_refl Hfit eq_refl).
Defined.


Lemma sample_keeps_the_vertices_witness :
  @fit_path_of Exact.externals Exact.img_a
  = Ok (Exact.data_path ++ ["300W-3D-Face"; "AFW"; "a.mat"]) ∧
  Exact.disk !! (Exact.data_path ++ ["300W-3D-Face"; "AFW"; "a.mat"])
  = Some (MatFile Exact.fit_a) ∧
  Exact.fit_a !! "Fitted_Face" = Some Exact.raw_a ∧
  Exact.raw_a !! 1%nat = Some [1; 1; 73; 73]%Q ∧
  ∃ img feat mesh st1,
    @load_data_with_feature_sample Exact.externals Exact.img_a
      err_proportion_default Exact.disk fresh_process
    = (Ok (img, feat, mesh), st1) ∧
    length (points mesh) = 4%nat ∧ width_is 3 (points mesh).
Proof.
  assert (Hfp : @fit_path_of Exact.externals Exact.img_a
                = Ok (Exact.data_path ++ ["300W-3D-Face"; "AFW"; "a.mat"]))
    by (vm_compute; reflexivity).
  assert (Hfit : Exact.disk
                   !! (Exact.data_path ++ ["300W-3D-Face"; "AFW"; "a.mat"])
                 = Some (MatFile Exact.fit_a)) by (vm_compute; reflexivity).
  assert (Hkey : Exact.fit_a !! "Fitted_Face" = Some Exact.raw_a)
    by (vm_compute; reflexivity).
  split; [exact Hfp|]. split; [exact Hfit|]. split; [exact Hkey|].
  split; [reflexivity|].
  do 4 eexists.
  match goal with
  | |- ?run = ?res ∧ _ => assert (Hrun : run = res) by (vm_compute; reflexivity)
  end.
  split; [exact Hrun|].
  exact (@sample_keeps_the_vertices Exact.externals _ _ _ _ _ _ _ _ _
           _ _ [1; 1; 73; 73]%Q Hfp Hfit Hkey eq_refl Hrun).
Defined.

Lemma index_out_of_range_raises_witness :
  (Z.of_nat (length Exact.img_paths) ≤ 100
   ∨ 100 < - Z.of_nat (length Exact.img_paths))%Z ∧
  getitem (@imgs_features_and_fits Exact.externals Exact.img_paths) 100
    Exact.disk fresh_process
  = (Raise IndexError, fresh_process).
Proof.
  assert (Hi : (Z.of_nat (length Exact.img_paths) ≤ 100
                ∨ 100 < - Z.of_nat (length Exact.img_paths))%Z)
    by (left; cbn; lia).
  split; [exact Hi|].
  exact (@index_out_of_range_raises Exact.externals Exact.img_paths 100
           Exact.disk fresh_process Hi).
Defined.

Lemma element_is_the_loader_on_its_path_witness :
  Exact.img_paths !! 3%nat = Some Exact.img_d ∧
  getitem (@imgs_features_and_fits Exact.externals Exact.img_paths) 3
    Exact.disk fresh_process
  = @load_data_with_feature_sample Exact.externals Exact.img_d
      err_proportion_default Exact.disk fresh_process ∧
  getitem (@imgs_features_and_fits Exact.externals Exact.img_paths) (-1)
    Exact.disk fresh_process
  = @load_data_with_feature_sample Exact.externals Exact.img_d
      err_proportion_default Exact.disk fresh_process.
Proof.
  split; [reflexivity|].
  exact (@element_is_the_loader_on_its_path Exact.externals Exact.img_paths 3
           Exact.img_d Exact.disk fresh_process eq_refl).
Defined.

Lemma training_set_elements_witness :
  (0 < @n_imgs_for_rpca)%nat ∧
  Exact.img_paths !! 0%nat = Some Exact.img_a ∧
  length (@training_set Exact.externals Exact.img_paths) = 4%nat ∧
  getitem (@training_set Exact.externals Exact.img_paths) 100
    Exact.disk fresh_process
  = (Raise IndexError, fresh_process).
Proof.
  assert (Hk : (0 < n_imgs_for_rpca)%nat) by (unfold n_imgs_for_rpca; lia).
  split; [exact Hk|]. split; [reflexivity|].
  destruct (@training_set_elements Exact.externals Exact.img_paths 0
              Exact.img_a Exact.disk fresh_process Hk eq_refl)
    as (Hlen & _ & Hout).
  split; [exact Hlen|]. exact (Hout 0%nat).
Defined.

Lemma as_float32_casts_the_image_witness :
  image_at Exact.heap_1 0
  = Some {| pixels := [[[(1 # 3)%Q; 2%Q]]]; landmarks := ∅ |} ∧
  ∃ img' h',
    @as_float32 Exact.externals 0 Exact.heap_1 = (Ok img', h') ∧
    image_at h' img'
    = Some (@as_float32_image Exact.externals
              {| pixels := [[[(1 # 3)%Q; 2%Q]]]; landmarks := ∅ |}) ∧
    length (arrays h') = 3%nat.
Proof.
  split; [reflexivity|].
  destruct (@as_float32_casts_the_image Exact.externals Exact.heap_1 0 _ eq_refl)
    as (img' & h' & Hrun & Hcast & _ & _ & Harr).
  exists img', h'. split; [exact Hrun|]. split; [exact Hcast|exact Harr].
Defined.

Lemma export_overwrites_and_keeps_other_files_witness :
  ["/"; "tmp"; "other.pkl"] ≠ @DATA_PATH Exact.externals ++ ["itw_texture_model.pkl"] ∧
  @export_cell Exact.externals nat 2
    (@export_cell Exact.externals nat 1
       {[ ["/"; "tmp"; "other.pkl"] := ∅ ]})
  !! ["/"; "tmp"; "other.pkl"]
  = Some ∅.
Proof.
  assert (Hne : ["/"; "tmp"; "other.pkl"]
                ≠ @DATA_PATH Exact.externals ++ ["itw_texture_model.pkl"])
    by discriminate.
  split; [exact Hne|].
  destruct (@export_overwrites_and_keeps_other_files Exact.externals nat 1 2
              {[ ["/"; "tmp"; "other.pkl"] := ∅ ]}) as (Heq & _ & _).
  rewrite Heq.
  destruct (@export_overwrites_and_keeps_other_files Exact.externals nat 2 2
              {[ ["/"; "tmp"; "other.pkl"] := ∅ ]}) as (_ & _ & Hframe).
  rewrite (Hframe _ Hne). apply lookup_singleton_eq.
Defined.

Lemma session_shares_the_trilist_witness :
  let run := @run_session Exact.externals Exact.img_paths Exact.session_1
               fresh_process in
  ∃ m1 m2 m3,
    fst run = [Ok m1; Ok m2; Ok m3] ∧
    trilist m1 = trilist m2 ∧ trilist m2 = trilist m3 ∧
    trilist_loads (snd run) = 1%nat.
Proof.
  intros run.
  destruct (@session_shares_the_trilist Exact.externals Exact.img_paths
              Exact.session_1) as (_ & Hshare).
  fold run in Hshare.
  do 3 eexists.
  split; [vm_compute; reflexivity|].
  split; [|split].
  - eapply (Hshare 0%nat 1%nat); vm_compute; reflexivity.
  - eapply (Hshare 1%nat 2%nat); vm_compute; reflexivity.
  - vm_compute. reflexivity.
Defined.

Lemma mesh_holds_a_copy_of_the_trilist_witness :
  @tri_heap_represents empty_tri_heap fresh_process ∧
  @load_trilist Exact.externals Exact.disk fresh_process
  = (Ok Exact.tri_0, stored Exact.tri_0 fresh_process) ∧
  ∃ a h' c,
    @mesh_trilist_object Exact.externals Exact.disk empty_tri_heap
    = (Ok a, h') ∧
    tri_slot h' = Some c ∧
    tri_arrays h' !! c = Some Exact.tri_0 ∧
    tri_arrays h' !! a = Some Exact.tri_0 ∧
    a ≠ c.
Proof.
  assert (Hrep : @tri_heap_represents empty_tri_heap fresh_process)
    by exact I.
  assert (Hrun : @load_trilist Exact.externals Exact.disk fresh_process
                 = (Ok Exact.tri_0, stored Exact.tri_0 fresh_process))
    by (vm_compute; reflexivity).
  split; [exact Hrep|]. split; [exact Hrun|].
  destruct (@mesh_holds_a_copy_of_the_trilist Exact.externals _ _ _ _ _
              Hrep Hrun)
    as (a & h' & c & Hmesh & _ & Hslot & Hc & Ha & Hne & _).
  exists a, h', c. split; [exact Hmesh|]. split; [exact Hslot|].
  split; [exact Hc|]. split; [exact Ha|exact Hne].
Defined.

Lemma exact_sample_extents_witness :
  ∃ img feat mesh st1,
    @load_data_with_feature_sample (Exact.externals_with Exact.keep_grid)
      Exact.img_a err_proportion_default Exact.disk fresh_process
    = (Ok (img, feat, mesh), st1) ∧
    ∃ img0 fit r,
      @load_img_and_fit (Exact.externals_with Exact.keep_grid)
        Exact.img_a Exact.disk fresh_process
      = (Ok (img0, fit), st1) ∧
      shape img0 = (4, 4)%nat ∧ (r == 90)%Q ∧
      (extent (column 0 (points mesh))
       == extent (column 0 (points fit)) * (7 # 3))%Q ∧
      (extent (column 1 (points mesh))
       == extent (column 1 (points fit)) * (7 # 3))%Q.
Proof.
  do 4 eexists.
  match goal with
  | |- ?l = ?r ∧ _ => assert (Hrun : l = r) by (vm_compute; reflexivity)
  end.
  split; [exact Hrun|].
  destruct (exact_sample_extents _ _ _ _ _ _ _ _ _ Hrun)
    as (img0 & fit & r & Hload & Hr & Hsq & Hs & Hext).
  exists img0, fit, r. split; [exact Hload|].
  vm_compute in Hload. injection Hload as <- <-.
  split; [reflexivity|].
  assert (Hr90 : (r == 90)%Q).
  { assert (H90 : (r * r == 90 * 90)%Q)
      by (rewrite Hsq; vm_compute; reflexivity).
    assert (Hz : ((r - 90) * (r + 90) == 0)%Q)
      by (transitivity (r * r - 90 * 90)%Q; [ring|rewrite H90; ring]).
    apply Qmult_integral in Hz. destruct Hz as [Hz|Hz].
    - transitivity ((r - 90) + 90)%Q; [ring|rewrite Hz; ring].
    - assert (Hle : (0 + 90 <= r + 90)%Q) by (apply Qplus_le_l; exact Hr).
      rewrite Hz in Hle. exfalso. apply Hle. reflexivity. }
  split; [exact Hr90|].
  cbv zeta in Hext.
  assert (Hf : (Exact.axis_factor (inject_Z DIAGONAL_RANGE / r) 4 == 7 # 3)%Q).
  { unfold Exact.axis_factor. rewrite Hr90. vm_compute. reflexivity. }
  cbn [fst snd shape pixels] in Hext. 
  assert (Hpos : (0 < Exact.axis_factor (inject_Z DIAGONAL_RANGE / r) 4)%Q)
    by (rewrite Hf; reflexivity).
  destruct (Hext Hpos Hpos) as [Hey Hex].
  rewrite Hf in Hey, Hex. split; [exact Hey|exact Hex].
Defined.
